(** * cppunicode: UTF-8 decoding and UTF-16 encoding

    A shallow embedding of the two headers of the repository:

    - [utf_conversions.h], namespace [cppunicode]: the sentinel-returning
      [convert] routine with its two helpers [utf8_header_byte] and
      [utf8_trail_byte];
    - [unic.h], namespace [unic]: the lazy decoding range [from_utf8_range],
      the encoding output iterator [to_utf16_iter], the size estimators
      [to_utf16_size] and the drivers [to_utf32] and [to_utf16].

    Conventions of the embedding.

    - A [char8_t] is a [Byte.byte]; [u8] gives its value in [0, 255].
    - [char16_t] and [char32_t] values are integers of [Z]; every place where
      the C++ code converts to one of these types reduces modulo [2^16] or
      [2^32] ([char16], [char32]).
    - A pointer or iterator into the source is an offset ([nat]) into the list
      of bytes of the range; reading at an offset outside the list is the
      outcome [OutOfBounds] (undefined behaviour in C++).
    - A C++ exception [utf_positioned_error] is the outcome [Throw].
    - Loops whose trip count is not structural take a fuel argument; running
      out of fuel is the outcome [OutOfFuel].  The drivers start with the
      length of the source as fuel and are shown never to reach it.
    - [ptrdiff_t] counts are integers of [Z]; a counter grows by at most two
      per sequence consumed, and its overflow is not modelled. *)

From Stdlib Require Import String ZArith List Lia Bool.
From Stdlib.Strings Require Import Byte.
Import ListNotations.

Local Open Scope Z_scope.

(** ** Machine data *)

Definition char8_t := byte.

Definition u8 (b : char8_t) : Z := Z.of_N (Byte.to_N b).

(** [static_cast] to [char8_t], [char16_t] and [char32_t]: the value modulo
    the width of the type. *)
Definition char8 (z : Z) : Z := z mod 2 ^ 8.
Definition char16 (z : Z) : Z := z mod 2 ^ 16.
Definition char32 (z : Z) : Z := z mod 2 ^ 32.

(** ** Outcomes of a call *)

(** Where an error was detected: a snapshot of a cursor into the sequence
    being read, or of the output iterator being written. *)
Inductive cursor : Type :=
| src_pos (offset : nat)
| out_pos (offset : nat).

(** [utf_positioned_error<src_iter>]: the position and the message handed to
    [std::runtime_error]. *)
Record utf_positioned_error : Type := {
  error_position : cursor;
  what : string
}.

Inductive outcome (A : Type) : Type :=
| Value (a : A)
| Throw (e : utf_positioned_error)
| OutOfBounds
| OutOfFuel.

Arguments Value {A} a.
Arguments Throw {A} e.
Arguments OutOfBounds {A}.
Arguments OutOfFuel {A}.

Definition bind {A B : Type} (c : outcome A) (k : A -> outcome B) : outcome B :=
  match c with
  | Value a => k a
  | Throw e => Throw e
  | OutOfBounds => OutOfBounds
  | OutOfFuel => OutOfFuel
  end.

Notation "x <- c ;; k" := (bind c (fun x => k))
  (at level 61, c at next level, right associativity).

(** [*p] for a pointer [p] at offset [i] of the range [src]. *)
Definition read {A : Type} (src : list A) (i : nat) : outcome A :=
  match nth_error src i with
  | Some x => Value x
  | None => OutOfBounds
  end.

(** ** utf_conversions.h *)

Module cppunicode.

(** [utf8_trail_byte(in, out)]: the returned flag and the new value of the
    reference parameter [out]. *)
Definition utf8_trail_byte (in_ : char8_t) (out : Z) : bool * Z :=
  if (u8 in_ <? 0x80) || (0xBF <? u8 in_) then (false, out)
  else (true, char32 (Z.lor (Z.shiftl out 6) (Z.land (u8 in_) 0x3F))).

(** [utf8_header_byte(in, out)]: the number of trailing bytes, or [-1], and
    the new value of [out]. *)
Definition utf8_header_byte (in_ : char8_t) (out : Z) : Z * Z :=
  if u8 in_ <? 0x80 then (0, u8 in_)
  else if u8 in_ <? 0xC0 then (-1, out)
  else if u8 in_ <? 0xE0 then (1, Z.land (u8 in_) 0x1F)
  else if u8 in_ <? 0xF0 then (2, Z.land (u8 in_) 0x0F)
  else if u8 in_ <? 0xF8 then (3, Z.land (u8 in_) 0x7)
  else (-1, out).

(** The [for] loop of [convert] over the trailing bytes: [n] iterations left,
    [u8_begin] the cursor.  [None] is the early [return -1]. *)
Fixpoint trail_loop (src : list char8_t) (n : nat) (u8_begin : nat) (code_point : Z)
  : outcome (option (nat * Z)) :=
  match n with
  | O => Value (Some (u8_begin, code_point))
  | S n' =>
      b <- read src u8_begin ;;
      let '(ok, code_point') := utf8_trail_byte b code_point in
      if ok then trail_loop src n' (S u8_begin) code_point'
      else Value None
  end.

(** The decoding half of one iteration of the [while] loop: the header byte,
    the truncation test and the trailing bytes.  The result is the cursor
    after the sequence and the decoded code point. *)
Definition decode_step (src : list char8_t) (u8_begin : nat) : outcome (option (nat * Z)) :=
  b <- read src u8_begin ;;
  let '(byte_cnt, code_point) := utf8_header_byte b 0 in
  let u8_begin := S u8_begin in
  if (byte_cnt <? 0) || (byte_cnt >? Z.of_nat (length src) - Z.of_nat u8_begin)
  then Value None
  else trail_loop src (Z.to_nat byte_cnt) u8_begin code_point.

(** The destination: [None] is the null pointer, [Some l] a pointer through
    which the units [l] have been written so far. *)
Definition destination := option (list Z).

Definition store (u16out : destination) (units : list Z) : destination :=
  option_map (fun written => written ++ units) u16out.

(** The encoding half of one iteration: the new destination and the new
    [outstr_size]. *)
Definition encode_step (code_point : Z) (u16out : destination) (outstr_size : Z)
  : destination * Z :=
  if code_point <? 0xFFFF then
    (store u16out [char16 code_point], outstr_size + 1)
  else
    let code_point' := char32 (code_point - 0x10000) in
    (store u16out [char16 (Z.shiftr code_point' 10 + 0xD800);
                   char16 (Z.land code_point' 0x3FF + 0xDC00)],
     outstr_size + 2).

Fixpoint convert_loop (fuel : nat) (src : list char8_t) (u8_begin : nat)
    (u16out : destination) (outstr_size : Z) : outcome (Z * destination) :=
  if (length src <=? u8_begin)%nat then Value (outstr_size, u16out)
  else
    match fuel with
    | O => OutOfFuel
    | S fuel' =>
        r <- decode_step src u8_begin ;;
        match r with
        | None => Value (-1, u16out)
        | Some (u8_begin', code_point) =>
            let '(u16out', outstr_size') := encode_step code_point u16out outstr_size in
            convert_loop fuel' src u8_begin' u16out' outstr_size'
        end
    end.

(** [convert(u8_begin, u8_end, u16out)] on the range holding the bytes [src]:
    the returned [ptrdiff_t] and the state of the destination. *)
Definition convert (src : list char8_t) (u16out : destination) : outcome (Z * destination) :=
  convert_loop (length src) src 0 u16out 0.

Definition null : destination := None.
Definition buffer : destination := Some [].

End cppunicode.

(** ** unic.h *)

Module unic.

(** *** Iterator interfaces

    The templates of [unic.h] are constrained by iterator concepts; the
    embedding states them as classes.  An input iterator can be dereferenced,
    advanced and compared, and a copy of it can be stored in an error; an
    output iterator accepts one value per write ([*out++ = v]). *)

Class input_iterator (It : Type) : Type := {
  deref : It -> outcome Z;
  incr : It -> outcome It;
  iter_eqb : It -> It -> bool;
  snapshot : It -> cursor
}.

Class output_iterator (Out : Type) : Type := {
  assign : Out -> Z -> outcome Out
}.

(** *** from_utf8_range *)

(** [std::countl_one] on an [unsigned char]: the bits are inspected from bit
    [n - 1] downwards. *)
Fixpoint countl_one_from (n : nat) (x : Z) : Z :=
  match n with
  | O => 0
  | S k => if Z.testbit x (Z.of_nat k) then 1 + countl_one_from k x else 0
  end.

Definition countl_one (x : Z) : Z := countl_one_from 8 x.

(** [from_utf8_range::iterator]: two offsets into the borrowed range. *)
Record iterator : Type := {
  m_begin : nat;
  m_end : nat
}.

(** The total length of the sequence announced by a header, [-1] on
    failure. *)
Definition compute_byte_count (header : char8_t) : Z :=
  let cnt := countl_one (u8 header) in
  if cnt =? 0 then 1
  else if (cnt <? 2) || (cnt >? 6) then -1
  else cnt.

Definition length_error (it : iterator) : utf_positioned_error :=
  {| error_position := src_pos (m_begin it);
     what := "Length in header byte is wrong" |}.

Definition trail_error (begin : nat) : utf_positioned_error :=
  {| error_position := src_pos begin;
     what := "Illegal trail byte" |}.

Section from_utf8_range.

Variable src : list char8_t.

(** [operator++()]: the advanced iterator. *)
Definition operator_inc (it : iterator) : outcome iterator :=
  header <- read src (m_begin it) ;;
  let cnt := compute_byte_count header in
  if (cnt =? -1) || (cnt >? Z.of_nat (m_end it) - Z.of_nat (m_begin it))
  then Throw (length_error it)
  else Value {| m_begin := m_begin it + Z.to_nat cnt; m_end := m_end it |}.

(** The [for] loop of [operator*] over the trailing bytes: [n] iterations
    left, [begin] the local cursor. *)
Fixpoint trail_loop (n : nat) (begin : nat) (code_point : Z) : outcome Z :=
  match n with
  | O => Value code_point
  | S n' =>
      b <- read src begin ;;
      if (u8 b <? 0x80) || (0xBF <? u8 b) then Throw (trail_error begin)
      else trail_loop n' (S begin)
             (char32 (Z.lor (Z.shiftl code_point 6) (Z.land (u8 b) 0x3F)))
  end.

(** [operator*()]: the code point at the cursor. *)
Definition operator_deref (it : iterator) : outcome Z :=
  header <- read src (m_begin it) ;;
  let cnt := compute_byte_count header in
  if (cnt =? -1) || (cnt >? Z.of_nat (m_end it) - Z.of_nat (m_begin it))
  then Throw (length_error it)
  else if cnt =? 1 then Value (u8 header)
  else
    trail_loop (Z.to_nat (cnt - 1)) (S (m_begin it))
      (char32 (Z.land (u8 header) (Z.shiftr (char8 (Z.lnot 0)) (cnt + 1)))).

Definition operator_eq (it other : iterator) : bool :=
  (m_begin it =? m_begin other)%nat.

Definition begin : iterator := {| m_begin := 0; m_end := length src |}.
Definition end_ : iterator := {| m_begin := length src; m_end := length src |}.

#[local] Instance from_utf8_input : input_iterator iterator := {
  deref := operator_deref;
  incr := operator_inc;
  iter_eqb := operator_eq;
  snapshot it := src_pos (m_begin it)
}.

End from_utf8_range.

(** *** A range of code points

    The input of the first overload of [to_utf16_size]: an iterator into a
    sequence of [char32_t]. *)
Section u32range.

Variable cps : list Z.

#[local] Instance u32_input : input_iterator nat := {
  deref i := read cps i;
  incr i := Value (S i);
  iter_eqb := Nat.eqb;
  snapshot i := src_pos i
}.

End u32range.

(** *** to_utf16_iter *)

(** The wrapped output iterator is the sequence of units written through it
    so far. *)
Record to_utf16_iter : Type := {
  m_iter : list Z
}.

Definition range_error (position : cursor) : utf_positioned_error :=
  {| error_position := position; what := "Out of UTF-16 range" |}.

(** [append(code_point)]. *)
Definition append (self : to_utf16_iter) (code_point : Z) : outcome to_utf16_iter :=
  if code_point <=? 0xFFFF then
    Value {| m_iter := m_iter self ++ [char16 code_point] |}
  else if code_point <=? 0x10FFFF then
    let code_point' := char32 (code_point - 0x10000) in
    Value {| m_iter := m_iter self ++ [char16 (Z.shiftr code_point' 10 + 0xD800);
                                       char16 (Z.land code_point' 0x3FF + 0xDC00)] |}
  else Throw (range_error (out_pos (length (m_iter self)))).

(** Writing through the proxy returned by [operator*] calls [append];
    [operator++] does nothing. *)
#[global] Instance to_utf16_output : output_iterator to_utf16_iter := {
  assign := append
}.

(** A plain sink of code points, for [to_utf32]. *)
#[global] Instance u32_output : output_iterator (list Z) := {
  assign out v := Value (out ++ [v])
}.

(** *** Size estimators and drivers *)

Section generic.

Context {It Out : Type} {input : input_iterator It} {output : output_iterator Out}.

(** [to_utf16_size(beg, end)] over code points. *)
Fixpoint to_utf16_size_loop (fuel : nat) (beg end_ : It) (size : Z) : outcome Z :=
  if iter_eqb beg end_ then Value size
  else
    match fuel with
    | O => OutOfFuel
    | S fuel' =>
        code_point <- deref beg ;;
        size' <- (if code_point <=? 0xFFFF then Value (size + 1)
                  else if code_point <=? 0x10FFFF then Value (size + 2)
                  else Throw (range_error (snapshot beg))) ;;
        beg' <- incr beg ;;
        to_utf16_size_loop fuel' beg' end_ size'
    end.

(** [std::ranges::copy(first, last, result)]. *)
Fixpoint copy (fuel : nat) (first last : It) (result : Out) : outcome Out :=
  if iter_eqb first last then Value result
  else
    match fuel with
    | O => OutOfFuel
    | S fuel' =>
        v <- deref first ;;
        result' <- assign result v ;;
        first' <- incr first ;;
        copy fuel' first' last result'
    end.

End generic.

(** [to_utf16_size(u32range)]. *)
Definition to_utf16_size_u32 (cps : list Z) : outcome Z :=
  to_utf16_size_loop (input := u32_input cps) (length cps) 0%nat (length cps) 0.

(** [to_utf16_size(beg, end)] over bytes: the same loop over
    [from_utf8_range{beg, end}]. *)
Definition to_utf16_size (src : list char8_t) : outcome Z :=
  to_utf16_size_loop (input := from_utf8_input src) (length src) (begin src) (end_ src) 0.

(** [to_utf32(beg, end, out)]. *)
Definition to_utf32 {Out : Type} `{output_iterator Out} (src : list char8_t) (out : Out)
  : outcome Out :=
  copy (input := from_utf8_input src) (length src) (begin src) (end_ src) out.

(** [to_utf16(beg, end, out)]: the units in the sink afterwards. *)
Definition to_utf16 (src : list char8_t) (out : list Z) : outcome (list Z) :=
  r <- to_utf32 src {| m_iter := out |} ;;
  Value (m_iter r).

End unic.

(** ** Reference definitions

    The repository has no UTF-8 encoder and no enumeration of failure kinds;
    the properties below that speak of "encoding to UTF-8", of "valid UTF-8"
    and of "failure kinds" are stated against these definitions. *)

Module reference.

(** A Unicode scalar value: a code point outside the surrogate range. *)
Definition is_scalar (cp : Z) : bool :=
  (0 <=? cp) && (cp <=? 0x10FFFF) && negb ((0xD800 <=? cp) && (cp <=? 0xDFFF)).

Definition byte_of_Z (z : Z) : char8_t :=
  match Byte.of_N (Z.to_N (z mod 256)) with
  | Some b => b
  | None => x00
  end.

(** The standard minimal UTF-8 encoding of a code point. *)
Definition utf8_encode (cp : Z) : list char8_t :=
  if cp <? 0x80 then
    [byte_of_Z cp]
  else if cp <? 0x800 then
    [byte_of_Z (Z.lor 0xC0 (Z.shiftr cp 6));
     byte_of_Z (Z.lor 0x80 (Z.land cp 0x3F))]
  else if cp <? 0x10000 then
    [byte_of_Z (Z.lor 0xE0 (Z.shiftr cp 12));
     byte_of_Z (Z.lor 0x80 (Z.land (Z.shiftr cp 6) 0x3F));
     byte_of_Z (Z.lor 0x80 (Z.land cp 0x3F))]
  else
    [byte_of_Z (Z.lor 0xF0 (Z.shiftr cp 18));
     byte_of_Z (Z.lor 0x80 (Z.land (Z.shiftr cp 12) 0x3F));
     byte_of_Z (Z.lor 0x80 (Z.land (Z.shiftr cp 6) 0x3F));
     byte_of_Z (Z.lor 0x80 (Z.land cp 0x3F))].

(** Valid UTF-8: the encoding of a sequence of scalar values. *)
Definition utf8_encode_all (cps : list Z) : list char8_t := flat_map utf8_encode cps.

(** The mapping of section 4.1 of the specification from a header byte to
    its number of trailing bytes; [None] is "invalid". *)
Definition trailing_bytes (header : Z) : option Z :=
  if header <=? 0x7F then Some 0
  else if header <=? 0xBF then None
  else if header <=? 0xDF then Some 1
  else if header <=? 0xEF then Some 2
  else if header <=? 0xF7 then Some 3
  else None.

(** The failure kinds of section 7 of the specification. *)
Inductive failure_kind : Type :=
| invalid_header
| truncated_sequence
| invalid_trailing_byte
| code_point_out_of_range.

End reference.

(** ** Auxiliary predicates *)

(** A continuation byte. *)
Definition is_trail (b : char8_t) : Prop := 0x80 <= u8 b <= 0xBF.

(** The test that opens both [operator++] and [operator*]. *)
Definition length_test (it : unic.iterator) (header : char8_t) : bool :=
  (unic.compute_byte_count header =? -1)
  || (unic.compute_byte_count header >? Z.of_nat (unic.m_end it) - Z.of_nat (unic.m_begin it)).

(** A sequence of bytes laid out in the source from offset [pos] on. *)
Definition occurs_at (src : list char8_t) (pos : nat) (bs : list char8_t) : Prop :=
  forall (k : nat) (b : char8_t), nth_error bs k = Some b -> read src (pos + k) = Value b.

(** The value a well-formed sequence stands for: the payload of the header
    followed by six bits per trailing byte. *)
Definition sequence_value (bs : list char8_t) : Z :=
  match bs with
  | [b0] => u8 b0
  | [b0; b1] => (u8 b0 - 0xC0) * 64 + (u8 b1 - 0x80)
  | [b0; b1; b2] => ((u8 b0 - 0xE0) * 64 + (u8 b1 - 0x80)) * 64 + (u8 b2 - 0x80)
  | [b0; b1; b2; b3] =>
      (((u8 b0 - 0xF0) * 64 + (u8 b1 - 0x80)) * 64 + (u8 b2 - 0x80)) * 64 + (u8 b3 - 0x80)
  | _ => 0
  end.

(** Header and trailing bytes in their ranges, for one to four bytes. *)
Definition sequence_shape (bs : list char8_t) : Prop :=
  match bs with
  | [b0] => u8 b0 < 0x80
  | [b0; b1] => 0xC0 <= u8 b0 < 0xE0 /\ is_trail b1
  | [b0; b1; b2] => 0xE0 <= u8 b0 < 0xF0 /\ is_trail b1 /\ is_trail b2
  | [b0; b1; b2; b3] => 0xF0 <= u8 b0 < 0xF8 /\ is_trail b1 /\ is_trail b2 /\ is_trail b3
  | _ => False
  end.

(** Writing a sequence of code points, one after the other, through an
    output iterator. *)
Fixpoint assign_all {Out : Type} {output : unic.output_iterator Out}
    (out : Out) (cps : list Z) : outcome Out :=
  match cps with
  | [] => Value out
  | cp :: cps' => out' <- unic.assign out cp ;; assign_all out' cps'
  end.

(** A call that returns or throws: it neither reads outside the range nor
    exhausts the fuel of the embedding. *)
Definition returns_or_throws {A : Type} (c : outcome A) : Prop :=
  match c with
  | Value _ | Throw _ => True
  | OutOfBounds | OutOfFuel => False
  end.

(** The loop of [convert] seen from the decoded code points: the encoding
    half of the iterations, one code point after the other. *)
Fixpoint encode_steps (cps : list Z) (u16out : cppunicode.destination) (outstr_size : Z)
  : Z * cppunicode.destination :=
  match cps with
  | [] => (outstr_size, u16out)
  | cp :: cps' =>
      let '(u16out', outstr_size') := cppunicode.encode_step cp u16out outstr_size in
      encode_steps cps' u16out' outstr_size'
  end.

(** The number of UTF-16 units of a sequence of code points: one up to
    0xFFFF, two above. *)
Fixpoint units_needed (cps : list Z) : Z :=
  match cps with
  | [] => 0
  | cp :: cps' => (if cp <=? 0xFFFF then 1 else 2) + units_needed cps'
  end.

(** The result of a decoding step of [convert] with its cursor moved [k]
    bytes further. *)
Definition shift_step (k : nat) (r : outcome (option (nat * Z))) : outcome (option (nat * Z)) :=
  r' <- r ;;
  Value (option_map (fun '(pos, cp) => ((k + pos)%nat, cp)) r').

(** ** Test vectors *)

Example convert_ascii :
  cppunicode.convert ["A"%byte; "z"%byte] cppunicode.buffer = Value (2, Some [0x41; 0x7A]).
Proof. reflexivity. Qed.

Example convert_U10000 :
  cppunicode.convert [xf0; x90; x80; x80] cppunicode.buffer = Value (2, Some [0xD800; 0xDC00]).
Proof. reflexivity. Qed.

Example convert_truncated :
  cppunicode.convert [xf0; x90; x80] cppunicode.null = Value (-1, None).
Proof. reflexivity. Qed.

Example deref_C2_80 : unic.operator_deref [xc2; x80] (unic.begin [xc2; x80]) = Value 0x80.
Proof. reflexivity. Qed.

Example deref_E0_A0_80 :
  unic.operator_deref [xe0; xa0; x80] (unic.begin [xe0; xa0; x80]) = Value 0x800.
Proof. reflexivity. Qed.

Example inc_C2_80 : unic.operator_inc [xc2; x80] (unic.begin [xc2; x80]) = Value (unic.end_ [xc2; x80]).
Proof. reflexivity. Qed.

Example inc_lone_continuation :
  unic.operator_inc [x80] (unic.begin [x80]) = Throw (unic.length_error (unic.begin [x80])).
Proof. reflexivity. Qed.

Example inc_truncated :
  unic.operator_inc [xf0; x90; x80] (unic.begin [xf0; x90; x80])
  = Throw (unic.length_error (unic.begin [xf0; x90; x80])).
Proof. reflexivity. Qed.

Example deref_six_byte_form :
  unic.operator_deref [xfd; xbf; xbf; xbf; xbf; xbf] (unic.begin [xfd; xbf; xbf; xbf; xbf; xbf])
  = Value 0x7FFFFFFF.
Proof. reflexivity. Qed.

Example to_utf16_U10000 : unic.to_utf16 [xf0; x90; x80; x80] [] = Value [0xD800; 0xDC00].
Proof. reflexivity. Qed.

Example to_utf16_size_mixed :
  unic.to_utf16_size ["a"%byte; xc2; x80; xf0; x90; x80; x80] = Value 4.
Proof. reflexivity. Qed.

Example to_utf16_size_u32_max : unic.to_utf16_size_u32 [0x10FFFF; 0x41] = Value 3.
Proof. reflexivity. Qed.

Example append_max :
  unic.append {| unic.m_iter := [] |} 0x10FFFF = Value {| unic.m_iter := [0xDBFF; 0xDFFF] |}.
Proof. reflexivity. Qed.

Example encode_euro : reference.utf8_encode 0x20AC = [xe2; x82; xac].
Proof. reflexivity. Qed.

Example encode_U10348 : reference.utf8_encode 0x10348 = [xf0; x90; x8d; x88].
Proof. reflexivity. Qed.

(** ** Header classification *)

(** Both classifiers are finite tables over the 256 bytes. *)
Ltac by_byte b := destruct b; reflexivity.

Lemma u8_range (b : char8_t) : 0 <= u8 b < 256.
Proof. destruct b; vm_compute; split; congruence. Qed.

Lemma utf8_header_byte_table (b : char8_t) (out : Z) :
  fst (cppunicode.utf8_header_byte b out) =
  match reference.trailing_bytes (u8 b) with
  | Some n => n
  | None => -1
  end.
Proof. by_byte b. Qed.

Lemma compute_byte_count_table (b : char8_t) :
  unic.compute_byte_count b =
  if u8 b <? 0x80 then 1
  else if u8 b <? 0xC0 then -1
  else if u8 b <? 0xE0 then 2
  else if u8 b <? 0xF0 then 3
  else if u8 b <? 0xF8 then 4
  else if u8 b <? 0xFC then 5
  else if u8 b <? 0xFE then 6
  else -1.
Proof. by_byte b. Qed.

Lemma compute_byte_count_range (b : char8_t) :
  unic.compute_byte_count b = -1 \/ 1 <= unic.compute_byte_count b <= 6.
Proof. destruct b; vm_compute; intuition congruence. Qed.

(** C3, as stated, fails: the header byte 0xF8 is rejected by the classifier
    of [convert] but accepted, as the header of a five-byte sequence, by the
    classifier of the lazy iterator. *)
Lemma header_F8_accepted_by_lazy_classifier :
  0xF8 <= u8 xf8 /\
  fst (cppunicode.utf8_header_byte xf8 0) = -1 /\
  unic.compute_byte_count xf8 = 5 /\
  unic.compute_byte_count xf8 <> -1.
Proof. repeat split; vm_compute; congruence. Qed.

(** C3, amended: the classifier of [convert] implements the mapping of the
    specification on every byte (0x00-0x7F: 0 trailing bytes, 0x80-0xBF:
    invalid, 0xC0-0xDF: 1, 0xE0-0xEF: 2, 0xF0-0xF7: 3, 0xF8 and above:
    invalid); the classifier of the lazy iterator, which returns the total
    length of the sequence, implements the same mapping on every byte below
    0xF8, accepts 0xF8-0xFB as the header of a five-byte sequence and
    0xFC-0xFD as the header of a six-byte sequence, and reports 0xFE and 0xFF
    invalid. *)
Theorem header_classifiers_agree_below_F8 (b : char8_t) (out : Z) :
  fst (cppunicode.utf8_header_byte b out) =
    match reference.trailing_bytes (u8 b) with
    | Some n => n
    | None => -1
    end
  /\
  unic.compute_byte_count b =
    if u8 b <? 0xF8 then
      match reference.trailing_bytes (u8 b) with
      | Some n => 1 + n
      | None => -1
      end
    else if u8 b <? 0xFC then 5
    else if u8 b <? 0xFE then 6
    else -1.
Proof. split; by_byte b. Qed.

(** ** The boundary of the basic multilingual plane *)

Lemma char16_small (z : Z) : 0 <= z <= 0xFFFF -> char16 z = z.
Proof. intros Hz. unfold char16. apply Z.mod_small. lia. Qed.

Lemma char32_small (z : Z) : 0 <= z < 2 ^ 32 -> char32 z = z.
Proof. intros Hz. unfold char32. apply Z.mod_small. lia. Qed.

(** The encoder of [unic.h] writes one unit, the code point itself, for every
    code point up to 0xFFFF. *)
Lemma append_one_unit (self : unic.to_utf16_iter) (cp : Z) :
  0 <= cp <= 0xFFFF ->
  unic.append self cp = Value {| unic.m_iter := unic.m_iter self ++ [cp] |}.
Proof.
  intros Hcp. unfold unic.append.
  destruct (Z.leb_spec cp 0xFFFF) as [_ | Hgt]; [ | lia ].
  now rewrite char16_small.
Qed.

(** [convert] does so only below 0xFFFF. *)
Lemma encode_step_one_unit (cp : Z) (u16out : cppunicode.destination) (size : Z) :
  0 <= cp < 0xFFFF ->
  cppunicode.encode_step cp u16out size = (cppunicode.store u16out [cp], size + 1).
Proof.
  intros Hcp. unfold cppunicode.encode_step.
  destruct (Z.ltb_spec cp 0xFFFF) as [_ | Hge]; [ | lia ].
  rewrite char16_small by lia. reflexivity.
Qed.

(** The size estimator over code points counts one unit per code point up to
    0xFFFF. *)
Lemma to_utf16_size_u32_one_unit (cp : Z) :
  0 <= cp <= 0xFFFF -> unic.to_utf16_size_u32 [cp] = Value 1.
Proof.
  intros Hcp. unfold unic.to_utf16_size_u32. cbn.
  unfold read. cbn.
  destruct (Z.leb_spec cp 0xFFFF) as [_ | Hgt]; [ reflexivity | lia ].
Qed.

(** C1 fails on the code: [convert] compares with [<] where the encoder of
    [unic.h] compares with [<=].  On the bytes EF BF BF, the UTF-8 encoding of
    U+FFFF, [convert] counts two units and writes the pair (0xD7FF, 0xDFFF),
    while the encoder and the size estimator of [unic.h] produce the single
    unit 0xFFFF. *)
Theorem convert_UFFFF_two_units :
  reference.utf8_encode 0xFFFF = [xef; xbf; xbf] /\
  cppunicode.decode_step [xef; xbf; xbf] 0 = Value (Some (3%nat, 0xFFFF)) /\
  cppunicode.convert [xef; xbf; xbf] cppunicode.null = Value (2, None) /\
  cppunicode.convert [xef; xbf; xbf] cppunicode.buffer = Value (2, Some [0xD7FF; 0xDFFF]) /\
  unic.to_utf16 [xef; xbf; xbf] [] = Value [0xFFFF] /\
  unic.to_utf16_size [xef; xbf; xbf] = Value 1.
Proof. repeat split; reflexivity. Qed.

(** ** Code points above 0x10FFFF *)

Lemma append_out_of_range (self : unic.to_utf16_iter) (cp : Z) :
  0x10FFFF < cp ->
  unic.append self cp = Throw (unic.range_error (out_pos (length (unic.m_iter self)))).
Proof.
  intros Hcp. unfold unic.append.
  destruct (Z.leb_spec cp 0xFFFF); [ lia | ].
  destruct (Z.leb_spec cp 0x10FFFF); [ lia | reflexivity ].
Qed.

(** C2 fails on the code: [convert] has no test against 0x10FFFF.  The bytes
    F4 90 80 80 decode to 0x110000; the encoder and the size estimator of
    [unic.h] raise "Out of UTF-16 range", [convert] returns the count 2 and
    writes the units (0xDC00, 0xDC00). *)
Theorem convert_accepts_0x110000 :
  cppunicode.decode_step [xf4; x90; x80; x80] 0 = Value (Some (4%nat, 0x110000)) /\
  unic.operator_deref [xf4; x90; x80; x80] (unic.begin [xf4; x90; x80; x80]) = Value 0x110000 /\
  cppunicode.convert [xf4; x90; x80; x80] cppunicode.null = Value (2, None) /\
  cppunicode.convert [xf4; x90; x80; x80] cppunicode.buffer = Value (2, Some [0xDC00; 0xDC00]) /\
  unic.to_utf16 [xf4; x90; x80; x80] [] = Throw (unic.range_error (out_pos 0)) /\
  unic.to_utf16_size [xf4; x90; x80; x80] = Throw (unic.range_error (src_pos 0)) /\
  unic.to_utf16_size_u32 [0x110000] = Throw (unic.range_error (src_pos 0)).
Proof. repeat split; reflexivity. Qed.

(** ** Overlong forms *)

(** C9: neither decoder checks minimality.  The two-byte input C0 80 is an
    overlong form of U+0000 (whose encoding is the single byte 00); [convert]
    and the lazy decoder both accept it and yield the code point 0. *)
Theorem overlong_C0_80_accepted :
  reference.utf8_encode 0 = [x00] /\
  cppunicode.decode_step [xc0; x80] 0 = Value (Some (2%nat, 0)) /\
  cppunicode.convert [xc0; x80] cppunicode.null = Value (1, None) /\
  cppunicode.convert [xc0; x80] cppunicode.buffer = Value (1, Some [0]) /\
  unic.operator_deref [xc0; x80] (unic.begin [xc0; x80]) = Value 0 /\
  unic.operator_inc [xc0; x80] (unic.begin [xc0; x80]) = Value (unic.end_ [xc0; x80]) /\
  unic.to_utf32 [xc0; x80] [] = Value [0].
Proof. repeat split; reflexivity. Qed.

(** ** [convert] stays inside its range and returns *)

Lemma read_in_bounds {A : Type} (src : list A) (i : nat) :
  (i < length src)%nat -> exists x, read src i = Value x.
Proof.
  intros Hi. unfold read.
  destruct (nth_error src i) as [x | ] eqn:Hnth.
  - now exists x.
  - apply nth_error_None in Hnth. lia.
Qed.

Lemma read_cases {A : Type} (src : list A) (i : nat) :
  read src i = OutOfBounds \/ exists x, read src i = Value x.
Proof. unfold read. destruct (nth_error src i); eauto. Qed.

Lemma utf8_trail_byte_cases (b : char8_t) (out : Z) :
  cppunicode.utf8_trail_byte b out = (false, out) \/
  exists out', cppunicode.utf8_trail_byte b out = (true, out').
Proof.
  unfold cppunicode.utf8_trail_byte.
  destruct ((u8 b <? 0x80) || (0xBF <? u8 b)); [ now left | right; eauto ].
Qed.

(** The trailing-byte loop reads the [n] offsets from the cursor on; when
    they lie inside the range every read succeeds, and a completed loop
    leaves the cursor [n] bytes further. *)
Lemma convert_trail_loop_in_bounds (src : list char8_t) (n : nat) :
  forall (pos : nat) (cp : Z),
    (pos + n <= length src)%nat ->
    cppunicode.trail_loop src n pos cp = Value None \/
    exists cp', cppunicode.trail_loop src n pos cp = Value (Some ((pos + n)%nat, cp')).
Proof.
  induction n as [ | n IH]; intros pos cp Hle; cbn [cppunicode.trail_loop].
  - right. exists cp. now rewrite Nat.add_0_r.
  - destruct (read_in_bounds src pos) as [b ->]; [ lia | ]. cbn [bind].
    destruct (utf8_trail_byte_cases b cp) as [-> | [cp' ->]].
    + now left.
    + replace (pos + S n)%nat with (S pos + n)%nat by lia.
      apply IH. lia.
Qed.

Lemma utf8_header_byte_range (b : char8_t) (out : Z) :
  -1 <= fst (cppunicode.utf8_header_byte b out) <= 3.
Proof.
  unfold cppunicode.utf8_header_byte.
  repeat match goal with
         | |- context [if ?c then _ else _] => destruct c
         end; cbn; lia.
Qed.

(** One decoding step from a cursor inside the range reads inside the range
    only, and moves the cursor forward without passing the end. *)
Lemma decode_step_in_bounds (src : list char8_t) (pos : nat) :
  (pos < length src)%nat ->
  cppunicode.decode_step src pos = Value None \/
  exists pos' cp,
    cppunicode.decode_step src pos = Value (Some (pos', cp)) /\
    (pos < pos' <= length src)%nat.
Proof.
  intros Hlt. unfold cppunicode.decode_step.
  destruct (read_in_bounds src pos Hlt) as [b ->]. cbn [bind].
  pose proof (utf8_header_byte_range b 0) as Hrange.
  destruct (cppunicode.utf8_header_byte b 0) as [byte_cnt cp0]. cbn [fst] in Hrange.
  destruct (Z.ltb_spec byte_cnt 0) as [Hneg | Hpos]; cbn [orb]; [ now left | ].
  destruct (byte_cnt >? Z.of_nat (length src) - Z.of_nat (S pos)) eqn:Hcmp; [ now left | ].
  assert (Hfit : byte_cnt <= Z.of_nat (length src) - Z.of_nat (S pos)).
  { rewrite Z.gtb_ltb in Hcmp. now apply Z.ltb_ge in Hcmp. }
  destruct (convert_trail_loop_in_bounds src (Z.to_nat byte_cnt) (S pos) cp0) as [-> | [cp' ->]].
  - lia.
  - now left.
  - right. exists (S pos + Z.to_nat byte_cnt)%nat, cp'. split; [ reflexivity | lia ].
Qed.

Lemma encode_step_cases (cp : Z) (u16out : cppunicode.destination) (size : Z) :
  exists units,
    cppunicode.encode_step cp u16out size =
      (cppunicode.store u16out units, size + Z.of_nat (length units)) /\
    (1 <= length units <= 2)%nat.
Proof.
  unfold cppunicode.encode_step.
  destruct (cp <? 0xFFFF).
  - exists [char16 cp]. split; [ reflexivity | cbn; lia ].
  - eexists [_; _]. split; [ reflexivity | cbn; lia ].
Qed.

(** The loop of [convert] with enough fuel for the bytes that remain: it
    returns, the null destination stays null, and a non-null destination has
    received as many units as were counted unless the result is the
    sentinel. *)
Lemma convert_loop_returns (src : list char8_t) (fuel : nat) :
  forall (pos : nat) (u16out : cppunicode.destination) (size : Z),
    (length src - pos <= fuel)%nat ->
    exists n u16out',
      cppunicode.convert_loop fuel src pos u16out size = Value (n, u16out') /\
      match u16out, u16out' with
      | None, None => True
      | Some l, Some l' =>
          n = -1 \/ n - size = Z.of_nat (length l') - Z.of_nat (length l)
      | _, _ => False
      end.
Proof.
  induction fuel as [ | fuel IH]; intros pos u16out size Hfuel.
  - cbn [cppunicode.convert_loop].
    destruct (Nat.leb_spec (length src) pos) as [Hend | Hmore]; [ | lia ].
    exists size, u16out. split; [ reflexivity | ].
    destruct u16out; [ right; lia | exact I ].
  - cbn [cppunicode.convert_loop].
    destruct (Nat.leb_spec (length src) pos) as [Hend | Hmore].
    + exists size, u16out. split; [ reflexivity | ].
      destruct u16out; [ right; lia | exact I ].
    + destruct (decode_step_in_bounds src pos Hmore) as [-> | (pos' & cp & -> & Hpos')];
        cbn [bind].
      * exists (-1), u16out. split; [ reflexivity | ].
        destruct u16out; [ now left | exact I ].
      * destruct (encode_step_cases cp u16out size) as (units & -> & Hunits).
        destruct (IH pos' (cppunicode.store u16out units) (size + Z.of_nat (length units)))
          as (n & u16out' & Hloop & Hrel); [ lia | ].
        exists n, u16out'. split; [ exact Hloop | ].
        destruct u16out as [l | ]; cbn [cppunicode.store option_map] in Hrel;
          destruct u16out' as [l' | ]; try exact Hrel.
        destruct Hrel as [Hfail | Hcount]; [ now left | right ].
        rewrite length_app in Hcount. lia.
Qed.

(** The count does not depend on the destination. *)
Lemma convert_loop_count (src : list char8_t) (fuel : nat) :
  forall (pos : nat) (u16out : cppunicode.destination) (size : Z),
    cppunicode.convert_loop fuel src pos cppunicode.null size =
    r <- cppunicode.convert_loop fuel src pos u16out size ;;
    Value (fst r, cppunicode.null).
Proof.
  induction fuel as [ | fuel IH]; intros pos u16out size; cbn [cppunicode.convert_loop].
  - destruct (length src <=? pos)%nat; reflexivity.
  - destruct (length src <=? pos)%nat; [ reflexivity | ].
    destruct (cppunicode.decode_step src pos) as [[[pos' cp] | ] | e | | ]; cbn [bind];
      try reflexivity.
    assert (Hsame : cppunicode.encode_step cp cppunicode.null size =
                    (cppunicode.null, snd (cppunicode.encode_step cp u16out size))).
    { unfold cppunicode.encode_step. destruct (cp <? 0xFFFF); reflexivity. }
    rewrite Hsame.
    destruct (cppunicode.encode_step cp u16out size) as [u16out' size']. cbn [snd].
    apply IH.
Qed.

(** C10: [convert] never reads outside the source range.  Every read of the
    embedding goes through [read], whose out-of-range branch is the outcome
    [OutOfBounds]; for every source and every destination [convert] returns a
    value, so that branch (and the exhaustion of the fuel) is never taken. *)
Theorem convert_reads_in_bounds (src : list char8_t) (u16out : cppunicode.destination) :
  (exists n u16out', cppunicode.convert src u16out = Value (n, u16out')) /\
  cppunicode.convert src u16out <> OutOfBounds.
Proof.
  destruct (convert_loop_returns src (length src) 0 u16out 0) as (n & u16out' & Hret & _);
    [ lia | ].
  unfold cppunicode.convert. rewrite Hret.
  split; [ now exists n, u16out' | discriminate ].
Qed.

(** C5: on every source, the dry run (null destination) and the filling run
    return the same value, in particular the sentinel [-1] on the same
    sources, and when the value is a count the filling run has written exactly
    that many units. *)
Theorem convert_dry_run_agrees (src : list char8_t) :
  exists (n : Z) (written : list Z),
    cppunicode.convert src cppunicode.null = Value (n, None) /\
    cppunicode.convert src cppunicode.buffer = Value (n, Some written) /\
    (n = -1 \/ n = Z.of_nat (length written)).
Proof.
  unfold cppunicode.convert.
  rewrite (convert_loop_count src (length src) 0 cppunicode.buffer 0).
  destruct (convert_loop_returns src (length src) 0 cppunicode.buffer 0)
    as (n & u16out' & -> & Hrel); [ lia | ].
  unfold cppunicode.buffer in Hrel. destruct u16out' as [written | ]; [ | contradiction ].
  exists n, written. cbn [bind fst]. repeat split.
  destruct Hrel as [Hfail | Hcount]; [ now left | right ].
  cbn [length] in Hcount. lia.
Qed.

(** ** Errors of the lazy iterator *)

Lemma trail_test (b : char8_t) :
  (u8 b <? 0x80) || (0xBF <? u8 b) = true /\ ~ is_trail b \/
  (u8 b <? 0x80) || (0xBF <? u8 b) = false /\ is_trail b.
Proof.
  unfold is_trail.
  destruct (Z.ltb_spec (u8 b) 0x80), (Z.ltb_spec 0xBF (u8 b)); cbn; [ left | left | left | right ];
    (split; [ reflexivity | lia ]).
Qed.

(** The trailing-byte loop of [operator*] raises only "Illegal trail byte",
    at the offset of the first byte outside [0x80, 0xBF]. *)
Lemma lazy_trail_loop_throws (src : list char8_t) (n : nat) :
  forall (pos : nat) (cp : Z) (e : utf_positioned_error),
    unic.trail_loop src n pos cp = Throw e ->
    exists (k : nat) (b : char8_t),
      (k < n)%nat /\
      e = unic.trail_error (pos + k) /\
      read src (pos + k) = Value b /\ ~ is_trail b /\
      forall j, (j < k)%nat -> exists b', read src (pos + j) = Value b' /\ is_trail b'.
Proof.
  induction n as [ | n IH]; intros pos cp e Hthrow; cbn [unic.trail_loop] in Hthrow.
  - discriminate.
  - destruct (read_cases src pos) as [Hread | [b Hread]]; rewrite Hread in Hthrow;
      cbn [bind] in Hthrow; [ discriminate | ].
    destruct (trail_test b) as [[Htest Hbad] | [Htest Hgood]]; rewrite Htest in Hthrow.
    + injection Hthrow as <-. exists 0%nat, b. rewrite Nat.add_0_r.
      repeat split; auto; [ lia | intros j Hj; lia ].
    + apply IH in Hthrow as (k & b' & Hk & He & Hb' & Hbad & Hbefore).
      exists (S k), b'. replace (pos + S k)%nat with (S pos + k)%nat by lia.
      repeat split; auto; [ lia | ].
      intros [ | j] Hj.
      * exists b. now rewrite Nat.add_0_r.
      * replace (pos + S j)%nat with (S pos + j)%nat by lia. apply Hbefore. lia.
Qed.

Lemma length_test_false (it : unic.iterator) (header : char8_t) :
  length_test it header = false ->
  1 <= unic.compute_byte_count header <= Z.of_nat (unic.m_end it) - Z.of_nat (unic.m_begin it).
Proof.
  unfold length_test. intros Htest.
  apply orb_false_iff in Htest as [Hvalid Hfit].
  apply Z.eqb_neq in Hvalid. rewrite Z.gtb_ltb in Hfit. apply Z.ltb_ge in Hfit.
  destruct (compute_byte_count_range header); lia.
Qed.

Lemma length_test_true (it : unic.iterator) (header : char8_t) :
  length_test it header = true ->
  unic.compute_byte_count header = -1 \/
  unic.compute_byte_count header > Z.of_nat (unic.m_end it) - Z.of_nat (unic.m_begin it).
Proof.
  unfold length_test. intros Htest.
  apply orb_true_iff in Htest as [Hinvalid | Hshort].
  - left. now apply Z.eqb_eq.
  - right. rewrite Z.gtb_ltb in Hshort. apply Z.ltb_lt in Hshort. lia.
Qed.

(** C4, as stated, fails: on the input C2 FF, whose only defect is its
    trailing byte, dereferencing raises at offset 1 while advancing succeeds
    and moves the cursor to the end. *)
Lemma advance_accepts_C2_FF :
  unic.operator_deref [xc2; xff] (unic.begin [xc2; xff]) = Throw (unic.trail_error 1) /\
  unic.operator_inc [xc2; xff] (unic.begin [xc2; xff]) = Value (unic.end_ [xc2; xff]).
Proof. split; reflexivity. Qed.

(** C4, amended: advancing performs the header classification and the
    truncation test of dereferencing, and raises the same error at the same
    position when they fail, but it does not inspect the trailing bytes.
    Hence: if dereferencing succeeds, advancing succeeds; if advancing raises,
    dereferencing raises the same error; if dereferencing raises, then either
    advancing raises the same error or the error is "Illegal trail byte" and
    advancing succeeds; and when advancing succeeds the cursor has moved
    forward by exactly the total length announced by the header, without
    passing the end. *)
Theorem advance_checks_header_only (src : list char8_t) (it : unic.iterator) :
  (forall cp, unic.operator_deref src it = Value cp ->
     exists it', unic.operator_inc src it = Value it') /\
  (forall e, unic.operator_inc src it = Throw e ->
     unic.operator_deref src it = Throw e /\ e = unic.length_error it) /\
  (forall e, unic.operator_deref src it = Throw e ->
     unic.operator_inc src it = Throw e \/
     what e = "Illegal trail byte"%string /\ exists it', unic.operator_inc src it = Value it') /\
  (forall it', unic.operator_inc src it = Value it' ->
     exists header,
       read src (unic.m_begin it) = Value header /\
       1 <= unic.compute_byte_count header /\
       it' = {| unic.m_begin := unic.m_begin it + Z.to_nat (unic.compute_byte_count header);
                unic.m_end := unic.m_end it |} /\
       (unic.m_begin it < unic.m_begin it' <= unic.m_end it)%nat).
Proof.
  unfold unic.operator_deref, unic.operator_inc.
  destruct (read_cases src (unic.m_begin it)) as [-> | [header ->]]; cbn [bind];
    [ repeat split; intros; discriminate | ].
  fold (length_test it header).
  destruct (length_test it header) eqn:Htest.
  - repeat split; intros; try discriminate.
    + congruence.
    + congruence.
    + left. congruence.
  - pose proof (length_test_false it header Htest) as Hcnt.
    repeat split; intros; try discriminate.
    + eauto.
    + right. destruct (unic.compute_byte_count header =? 1); [ discriminate | ].
      apply lazy_trail_loop_throws in H as (k & b & _ & -> & _). split; [ reflexivity | eauto ].
    + exists header. injection H as <-. cbn [unic.m_begin unic.m_end].
      repeat split; try reflexivity; lia.
Qed.

(** C8, as stated, fails: the error carries a position and a message, and no
    kind.  A lone continuation byte and a truncated sequence raise the very
    same error, so nothing computed from the error can tell [invalid_header]
    from [truncated_sequence]. *)
Lemma header_and_truncation_errors_coincide :
  ~ exists kind_of : utf_positioned_error -> reference.failure_kind,
      (forall e, unic.operator_deref [x80] (unic.begin [x80]) = Throw e ->
                 kind_of e = reference.invalid_header) /\
      (forall e, unic.operator_deref [xf0; x90; x80] (unic.begin [xf0; x90; x80]) = Throw e ->
                 kind_of e = reference.truncated_sequence).
Proof.
  intros (kind_of & Hheader & Htruncated).
  pose (e := {| error_position := src_pos 0; what := "Length in header byte is wrong" |}).
  pose proof (Hheader e eq_refl) as Hkind.
  rewrite (Htruncated e eq_refl) in Hkind.
  discriminate Hkind.
Qed.

Lemma length_test_fails (it : unic.iterator) (header : char8_t) :
  unic.compute_byte_count header = -1 \/
  unic.compute_byte_count header > Z.of_nat (unic.m_end it) - Z.of_nat (unic.m_begin it) ->
  length_test it header = true.
Proof.
  unfold length_test. intros [Hinvalid | Hshort]; apply orb_true_iff.
  - left. now apply Z.eqb_eq.
  - right. rewrite Z.gtb_ltb. apply Z.ltb_lt. lia.
Qed.

Lemma length_test_holds (it : unic.iterator) (header : char8_t) :
  1 <= unic.compute_byte_count header <= Z.of_nat (unic.m_end it) - Z.of_nat (unic.m_begin it) ->
  length_test it header = false.
Proof.
  intros Hcnt. unfold length_test. apply orb_false_iff. split.
  - apply Z.eqb_neq. lia.
  - rewrite Z.gtb_ltb. apply Z.ltb_ge. lia.
Qed.

Lemma continuation_is_no_header (header : char8_t) :
  0x80 <= u8 header <= 0xBF -> unic.compute_byte_count header = -1.
Proof.
  intros Hb. rewrite compute_byte_count_table.
  destruct (Z.ltb_spec (u8 header) 0x80); [ lia | ].
  destruct (Z.ltb_spec (u8 header) 0xC0); [ reflexivity | lia ].
Qed.

Lemma multi_byte_header (header : char8_t) :
  0xC0 <= u8 header <= 0xFD -> 2 <= unic.compute_byte_count header <= 6.
Proof.
  intros Hb. rewrite compute_byte_count_table.
  repeat match goal with
         | |- context [?x <? ?y] => destruct (Z.ltb_spec x y); try lia
         end.
Qed.

(** The trailing-byte loop of [operator*] does raise at the first byte
    outside [0x80, 0xBF], whatever follows it. *)
Lemma lazy_trail_loop_first_bad (src : list char8_t) (k : nat) :
  forall (n pos : nat) (cp : Z) (b : char8_t),
    (k < n)%nat ->
    read src (pos + k) = Value b -> ~ is_trail b ->
    (forall j, (j < k)%nat -> exists b', read src (pos + j) = Value b' /\ is_trail b') ->
    unic.trail_loop src n pos cp = Throw (unic.trail_error (pos + k)).
Proof.
  induction k as [ | k IH]; intros n pos cp b Hk Hread Hbad Hbefore;
    (destruct n as [ | n]; [ lia | ]); cbn [unic.trail_loop].
  - rewrite Nat.add_0_r in *. rewrite Hread. cbn [bind].
    destruct (trail_test b) as [[-> _] | [_ Hgood]]; [ reflexivity | contradiction ].
  - destruct (Hbefore 0%nat) as (b0 & Hread0 & Hgood0); [ lia | ].
    rewrite Nat.add_0_r in Hread0. rewrite Hread0. cbn [bind].
    destruct (trail_test b0) as [[_ Hbad0] | [-> _]]; [ contradiction | ].
    replace (pos + S k)%nat with (S pos + k)%nat in * by lia.
    apply (IH n (S pos) _ b); auto; [ lia | ].
    intros j Hj. replace (S pos + j)%nat with (pos + S j)%nat by lia.
    apply Hbefore. lia.
Qed.

(** With every trailing byte inside [0x80, 0xBF] the loop returns. *)
Lemma lazy_trail_loop_all_good (src : list char8_t) (n : nat) :
  forall (pos : nat) (cp : Z),
    (forall j, (j < n)%nat -> exists b', read src (pos + j) = Value b' /\ is_trail b') ->
    exists cp', unic.trail_loop src n pos cp = Value cp'.
Proof.
  induction n as [ | n IH]; intros pos cp Hgood; cbn [unic.trail_loop]; [ eauto | ].
  destruct (Hgood 0%nat) as (b0 & Hread0 & Hgood0); [ lia | ].
  rewrite Nat.add_0_r in Hread0. rewrite Hread0. cbn [bind].
  destruct (trail_test b0) as [[_ Hbad0] | [-> _]]; [ contradiction | ].
  apply IH. intros j Hj. replace (S pos + j)%nat with (pos + S j)%nat by lia.
  apply Hgood. lia.
Qed.

(** C8, amended: whenever dereferencing fails, the raised error carries the
    exact offending position and a message, and no kind.  Every lone
    continuation byte (more generally every header the classifier rejects)
    and every truncated sequence make [operator*] raise "Length in header
    byte is wrong" at the cursor, the offset of the header; both causes give
    the same message.  Every sequence whose header is accepted and fits, and
    whose first trailing byte outside [0x80, 0xBF] stands [k] bytes after the
    header, makes [operator*] raise "Illegal trail byte" at that byte's
    offset.  When the header is accepted and fits and every trailing byte is
    in range, [operator*] returns.  Conversely an error raised by [operator*]
    is one of these two, for these causes.  In particular the byte 80 alone
    fails at offset 0 and the truncated F0 90 80 at offset 0, both with the
    first message, and C2 FF fails at offset 1 with the second. *)
Theorem positioned_errors_of_deref :
  (forall (src : list char8_t) (it : unic.iterator) (header : char8_t),
     read src (unic.m_begin it) = Value header ->
     0x80 <= u8 header <= 0xBF ->
     unic.operator_deref src it =
     Throw {| error_position := src_pos (unic.m_begin it);
              what := "Length in header byte is wrong" |}) /\
  (forall (src : list char8_t) (it : unic.iterator) (header : char8_t),
     read src (unic.m_begin it) = Value header ->
     0xC0 <= u8 header <= 0xFD ->
     Z.of_nat (unic.m_end it) - Z.of_nat (unic.m_begin it) < unic.compute_byte_count header ->
     unic.operator_deref src it =
     Throw {| error_position := src_pos (unic.m_begin it);
              what := "Length in header byte is wrong" |}) /\
  (forall (src : list char8_t) (it : unic.iterator) (header : char8_t),
     read src (unic.m_begin it) = Value header ->
     unic.compute_byte_count header = -1 \/
     unic.compute_byte_count header > Z.of_nat (unic.m_end it) - Z.of_nat (unic.m_begin it) ->
     unic.operator_deref src it =
     Throw {| error_position := src_pos (unic.m_begin it);
              what := "Length in header byte is wrong" |}) /\
  (forall (src : list char8_t) (it : unic.iterator) (header : char8_t) (k : nat) (b : char8_t),
     read src (unic.m_begin it) = Value header ->
     1 <= unic.compute_byte_count header
       <= Z.of_nat (unic.m_end it) - Z.of_nat (unic.m_begin it) ->
     (1 <= k)%nat -> Z.of_nat k < unic.compute_byte_count header ->
     read src (unic.m_begin it + k) = Value b -> ~ is_trail b ->
     (forall j, (1 <= j < k)%nat ->
        exists b', read src (unic.m_begin it + j) = Value b' /\ is_trail b') ->
     unic.operator_deref src it =
     Throw {| error_position := src_pos (unic.m_begin it + k);
              what := "Illegal trail byte" |}) /\
  (forall (src : list char8_t) (it : unic.iterator) (header : char8_t),
     read src (unic.m_begin it) = Value header ->
     1 <= unic.compute_byte_count header
       <= Z.of_nat (unic.m_end it) - Z.of_nat (unic.m_begin it) ->
     (forall j, (1 <= j)%nat -> Z.of_nat j < unic.compute_byte_count header ->
        exists b', read src (unic.m_begin it + j) = Value b' /\ is_trail b') ->
     exists cp, unic.operator_deref src it = Value cp) /\
  (forall (src : list char8_t) (it : unic.iterator) (e : utf_positioned_error),
     unic.operator_deref src it = Throw e ->
     exists header,
       read src (unic.m_begin it) = Value header /\
       (e = {| error_position := src_pos (unic.m_begin it);
               what := "Length in header byte is wrong" |} /\
        (unic.compute_byte_count header = -1 \/
         unic.compute_byte_count header > Z.of_nat (unic.m_end it) - Z.of_nat (unic.m_begin it))
        \/
        exists (k : nat) (b : char8_t),
          (1 <= k)%nat /\ Z.of_nat k < unic.compute_byte_count header /\
          e = {| error_position := src_pos (unic.m_begin it + k);
                 what := "Illegal trail byte" |} /\
          read src (unic.m_begin it + k) = Value b /\ ~ is_trail b /\
          forall j, (1 <= j < k)%nat ->
            exists b', read src (unic.m_begin it + j) = Value b' /\ is_trail b')) /\
  unic.operator_deref [x80] (unic.begin [x80]) =
    Throw {| error_position := src_pos 0; what := "Length in header byte is wrong" |} /\
  unic.operator_deref [xf0; x90; x80] (unic.begin [xf0; x90; x80]) =
    Throw {| error_position := src_pos 0; what := "Length in header byte is wrong" |} /\
  unic.operator_deref [xc2; xff] (unic.begin [xc2; xff]) =
    Throw {| error_position := src_pos 1; what := "Illegal trail byte" |}.
Proof.
  assert (Hlength : forall src it header,
            read src (unic.m_begin it) = Value header ->
            unic.compute_byte_count header = -1 \/
            unic.compute_byte_count header
              > Z.of_nat (unic.m_end it) - Z.of_nat (unic.m_begin it) ->
            unic.operator_deref src it = Throw (unic.length_error it)).
  { intros src it header Hread Hcause. unfold unic.operator_deref.
    rewrite Hread. cbn [bind]. fold (length_test it header).
    now rewrite (length_test_fails it header Hcause). }
  split; [ | split; [ | split; [ | split; [ | split; [ | split ] ] ] ] ].
  - intros src it header Hread Hb.
    apply (Hlength src it header Hread). left. now apply continuation_is_no_header.
  - intros src it header Hread Hb Hshort.
    apply (Hlength src it header Hread). right. lia.
  - exact Hlength.
  - intros src it header k b Hread Hcnt Hk1 Hk Hreadk Hbad Hbefore.
    unfold unic.operator_deref. rewrite Hread. cbn [bind]. fold (length_test it header).
    rewrite (length_test_holds it header Hcnt).
    destruct (Z.eqb_spec (unic.compute_byte_count header) 1) as [Hone | _]; [ lia | ].
    destruct k as [ | k]; [ lia | ].
    replace (unic.m_begin it + S k)%nat with (S (unic.m_begin it) + k)%nat in * by lia.
    apply (lazy_trail_loop_first_bad src k _ _ _ b); auto; [ lia | ].
    intros j Hj. replace (S (unic.m_begin it) + j)%nat with (unic.m_begin it + S j)%nat by lia.
    apply Hbefore. lia.
  - intros src it header Hread Hcnt Hgood.
    unfold unic.operator_deref. rewrite Hread. cbn [bind]. fold (length_test it header).
    rewrite (length_test_holds it header Hcnt).
    destruct (unic.compute_byte_count header =? 1); [ eauto | ].
    apply lazy_trail_loop_all_good.
    intros j Hj. replace (S (unic.m_begin it) + j)%nat with (unic.m_begin it + S j)%nat by lia.
    apply Hgood; lia.
  - intros src it e. unfold unic.operator_deref.
    destruct (read_cases src (unic.m_begin it)) as [-> | [header ->]]; cbn [bind];
      [ discriminate | ].
    fold (length_test it header).
    destruct (length_test it header) eqn:Htest; intros Hthrow; exists header;
      (split; [ reflexivity | ]).
    + left. injection Hthrow as <-. split; [ reflexivity | ].
      now apply length_test_true.
    + right. pose proof (length_test_false it header Htest) as Hcnt.
      destruct (unic.compute_byte_count header =? 1); [ discriminate | ].
      apply lazy_trail_loop_throws in Hthrow as (k & b & Hk & -> & Hb & Hbad & Hbefore).
      exists (S k), b.
      replace (unic.m_begin it + S k)%nat with (S (unic.m_begin it) + k)%nat by lia.
      repeat split; auto; try lia.
      intros [ | j] Hj; [ lia | ].
      replace (unic.m_begin it + S j)%nat with (S (unic.m_begin it) + j)%nat by lia.
      apply Hbefore. lia.
  - repeat split; reflexivity.
Qed.

(** ** Bit operations as arithmetic *)

Lemma lor_disjoint (a y k : Z) :
  0 <= k -> 0 <= y < 2 ^ k -> Z.lor (a * 2 ^ k) y = a * 2 ^ k + y.
Proof.
  intros Hk Hy.
  rewrite <- Z.add_lor_land.
  replace (Z.land (a * 2 ^ k) y) with 0; [ lia | ].
  symmetry. apply Z.bits_inj'. intros n Hn.
  rewrite Z.land_spec, Z.bits_0.
  destruct (Z.lt_ge_cases n k) as [Hlow | Hhigh].
  - now rewrite Z.mul_pow2_bits_low.
  - rewrite <- (Z.mod_small y (2 ^ k)) by lia.
    rewrite Z.mod_pow2_bits_high by lia. apply andb_false_r.
Qed.

(** One trailing byte folded into the accumulator, as both decoders do. *)
Lemma fold_trail_byte (cp : Z) (b : char8_t) :
  is_trail b -> 0 <= cp < 2 ^ 26 ->
  char32 (Z.lor (Z.shiftl cp 6) (Z.land (u8 b) 0x3F)) = cp * 64 + (u8 b - 0x80).
Proof.
  unfold is_trail. intros Hb Hcp.
  change 0x3F with (Z.ones 6). rewrite Z.land_ones by lia.
  rewrite Z.shiftl_mul_pow2 by lia.
  rewrite lor_disjoint by (try apply Z.mod_pos_bound; lia).
  change (2 ^ 6) with 64.
  replace (u8 b mod 64) with (u8 b - 0x80).
  - apply char32_small. change (2 ^ 32) with 4294967296. change (2 ^ 26) with 67108864 in Hcp. lia.
  - apply Z.mod_unique with (q := 2); lia.
Qed.

(** The seed bits kept from a header by a mask of [k] ones. *)
Lemma header_seed (x base k : Z) :
  0 <= k -> base mod 2 ^ k = 0 -> base <= x < base + 2 ^ k ->
  Z.land x (Z.ones k) = x - base.
Proof.
  intros Hk Hbase Hx. rewrite Z.land_ones by lia.
  symmetry. apply Z.mod_unique with (q := base / 2 ^ k); [ lia | ].
  pose proof (Z.div_mod base (2 ^ k)) as Hdm. rewrite Hbase in Hdm.
  assert (2 ^ k <> 0) by (apply Z.pow_nonzero; lia). lia.
Qed.

(** ** The decoders on well-formed sequences *)

Lemma length_test_passes (it : unic.iterator) (header : char8_t) :
  1 <= unic.compute_byte_count header <= Z.of_nat (unic.m_end it) - Z.of_nat (unic.m_begin it) ->
  length_test it header = false.
Proof.
  intros Hcnt. unfold length_test. apply orb_false_iff. split.
  - apply Z.eqb_neq. lia.
  - rewrite Z.gtb_ltb. apply Z.ltb_ge. lia.
Qed.

Lemma compute_byte_count_cases (b : char8_t) :
  (u8 b < 0x80 -> unic.compute_byte_count b = 1) /\
  (0xC0 <= u8 b < 0xE0 -> unic.compute_byte_count b = 2) /\
  (0xE0 <= u8 b < 0xF0 -> unic.compute_byte_count b = 3) /\
  (0xF0 <= u8 b < 0xF8 -> unic.compute_byte_count b = 4).
Proof.
  rewrite compute_byte_count_table.
  repeat split; intros Hb;
    repeat match goal with
           | |- context [?x <? ?y] => destruct (Z.ltb_spec x y); try lia
           end; reflexivity.
Qed.

Lemma lazy_trail_step (src : list char8_t) (n pos : nat) (cp : Z) (b : char8_t) :
  read src pos = Value b -> is_trail b -> 0 <= cp < 2 ^ 26 ->
  unic.trail_loop src (S n) pos cp = unic.trail_loop src n (S pos) (cp * 64 + (u8 b - 0x80)).
Proof.
  intros Hread Hb Hcp. cbn [unic.trail_loop]. rewrite Hread. cbn [bind].
  destruct (trail_test b) as [[_ Hbad] | [-> _]]; [ contradiction | ].
  now rewrite fold_trail_byte.
Qed.

Lemma convert_trail_step (src : list char8_t) (n pos : nat) (cp : Z) (b : char8_t) :
  read src pos = Value b -> is_trail b -> 0 <= cp < 2 ^ 26 ->
  cppunicode.trail_loop src (S n) pos cp =
  cppunicode.trail_loop src n (S pos) (cp * 64 + (u8 b - 0x80)).
Proof.
  intros Hread Hb Hcp. cbn [cppunicode.trail_loop]. rewrite Hread. cbn [bind].
  unfold cppunicode.utf8_trail_byte.
  destruct (trail_test b) as [[_ Hbad] | [-> _]]; [ contradiction | ].
  now rewrite fold_trail_byte.
Qed.

Ltac resolve_ltb :=
  repeat match goal with
         | |- context [?x <? ?y] => destruct (Z.ltb_spec x y); try lia
         end.

Ltac reads_of Hocc :=
  let H0 := fresh "Hread0" in
  let H1 := fresh "Hread1" in
  let H2 := fresh "Hread2" in
  let H3 := fresh "Hread3" in
  pose proof (Hocc 0%nat _ eq_refl) as H0;
  try pose proof (Hocc 1%nat _ eq_refl) as H1;
  try pose proof (Hocc 2%nat _ eq_refl) as H2;
  try pose proof (Hocc 3%nat _ eq_refl) as H3;
  rewrite ?Nat.add_0_r in *;
  rewrite ?Nat.add_1_r in *;
  repeat match goal with
         | H : read _ (?p + 2)%nat = _ |- _ => replace (p + 2)%nat with (S (S p)) in H by lia
         | H : read _ (?p + 3)%nat = _ |- _ => replace (p + 3)%nat with (S (S (S p))) in H by lia
         end.

(** [operator*] on a well-formed sequence of one to four bytes. *)
Lemma lazy_deref_sequence (src : list char8_t) (it : unic.iterator) (bs : list char8_t) :
  occurs_at src (unic.m_begin it) bs ->
  sequence_shape bs ->
  (unic.m_begin it + length bs <= unic.m_end it)%nat ->
  unic.operator_deref src it = Value (sequence_value bs).
Proof.
  intros Hocc Hshape Hfit.
  destruct bs as [ | b0 [ | b1 [ | b2 [ | b3 [ | ? ?]]]]]; cbn in Hshape, Hfit; try contradiction;
    reads_of Hocc;
    destruct (compute_byte_count_cases b0) as (Hc1 & Hc2 & Hc3 & Hc4);
    unfold unic.operator_deref; rewrite Hread0; cbn [bind];
    fold (length_test it b0).
  - rewrite length_test_passes by (rewrite Hc1 by lia; lia).
    rewrite Hc1 by lia. reflexivity.
  - destruct Hshape as (Hb0 & Hb1).
    rewrite length_test_passes by (rewrite Hc2 by lia; lia).
    rewrite Hc2 by lia. cbn [Z.eqb Pos.eqb].
    change (Z.shiftr (char8 (Z.lnot 0)) (2 + 1)) with (Z.ones 5).
    rewrite (header_seed (u8 b0) 0xC0 5) by (try reflexivity; lia).
    rewrite char32_small by lia.
    change (Z.to_nat (2 - 1)) with 1%nat.
    rewrite (lazy_trail_step src _ _ _ b1) by (auto; lia).
    reflexivity.
  - destruct Hshape as (Hb0 & Hb1 & Hb2).
    rewrite length_test_passes by (rewrite Hc3 by lia; lia).
    rewrite Hc3 by lia. cbn [Z.eqb Pos.eqb].
    change (Z.shiftr (char8 (Z.lnot 0)) (3 + 1)) with (Z.ones 4).
    rewrite (header_seed (u8 b0) 0xE0 4) by (try reflexivity; lia).
    rewrite char32_small by lia.
    change (Z.to_nat (3 - 1)) with 2%nat.
    unfold is_trail in *.
    rewrite (lazy_trail_step src _ _ _ b1) by (auto; lia).
    rewrite (lazy_trail_step src _ _ _ b2) by (auto; lia).
    reflexivity.
  - destruct Hshape as (Hb0 & Hb1 & Hb2 & Hb3).
    rewrite length_test_passes by (rewrite Hc4 by lia; lia).
    rewrite Hc4 by lia. cbn [Z.eqb Pos.eqb].
    change (Z.shiftr (char8 (Z.lnot 0)) (4 + 1)) with (Z.ones 3).
    rewrite (header_seed (u8 b0) 0xF0 3) by (try reflexivity; lia).
    rewrite char32_small by lia.
    change (Z.to_nat (4 - 1)) with 3%nat.
    unfold is_trail in *.
    rewrite (lazy_trail_step src _ _ _ b1) by (auto; lia).
    rewrite (lazy_trail_step src _ _ _ b2) by (auto; lia).
    rewrite (lazy_trail_step src _ _ _ b3) by (auto; lia).
    reflexivity.
Qed.

(** [operator++] on a well-formed sequence moves the cursor past it. *)
Lemma lazy_inc_sequence (src : list char8_t) (it : unic.iterator) (bs : list char8_t) :
  occurs_at src (unic.m_begin it) bs ->
  sequence_shape bs ->
  (unic.m_begin it + length bs <= unic.m_end it)%nat ->
  unic.operator_inc src it =
  Value {| unic.m_begin := unic.m_begin it + length bs; unic.m_end := unic.m_end it |}.
Proof.
  intros Hocc Hshape Hfit.
  destruct bs as [ | b0 [ | b1 [ | b2 [ | b3 [ | ? ?]]]]]; cbn in Hshape, Hfit; try contradiction;
    reads_of Hocc;
    destruct (compute_byte_count_cases b0) as (Hc1 & Hc2 & Hc3 & Hc4);
    unfold unic.operator_inc; rewrite Hread0; cbn [bind];
    fold (length_test it b0).
  - rewrite length_test_passes by (rewrite Hc1 by lia; lia).
    rewrite Hc1 by lia. f_equal; f_equal; cbn; lia.
  - rewrite length_test_passes by (rewrite Hc2 by lia; lia).
    rewrite Hc2 by lia. f_equal; f_equal; cbn; lia.
  - rewrite length_test_passes by (rewrite Hc3 by lia; lia).
    rewrite Hc3 by lia. f_equal; f_equal; cbn; lia.
  - rewrite length_test_passes by (rewrite Hc4 by lia; lia).
    rewrite Hc4 by lia. f_equal; f_equal; cbn; lia.
Qed.

Lemma truncation_test_passes (byte_cnt : Z) (len pos : nat) :
  0 <= byte_cnt <= Z.of_nat len - Z.of_nat pos ->
  (byte_cnt <? 0) || (byte_cnt >? Z.of_nat len - Z.of_nat pos) = false.
Proof.
  intros Hcnt. apply orb_false_iff. split.
  - apply Z.ltb_ge. lia.
  - rewrite Z.gtb_ltb. apply Z.ltb_ge. lia.
Qed.

Lemma utf8_header_byte_cases (b : char8_t) (out : Z) :
  (u8 b < 0x80 -> cppunicode.utf8_header_byte b out = (0, u8 b)) /\
  (0xC0 <= u8 b < 0xE0 -> cppunicode.utf8_header_byte b out = (1, u8 b - 0xC0)) /\
  (0xE0 <= u8 b < 0xF0 -> cppunicode.utf8_header_byte b out = (2, u8 b - 0xE0)) /\
  (0xF0 <= u8 b < 0xF8 -> cppunicode.utf8_header_byte b out = (3, u8 b - 0xF0)).
Proof.
  unfold cppunicode.utf8_header_byte.
  repeat split; intros Hb; resolve_ltb; f_equal.
  - change 0x1F with (Z.ones 5). apply header_seed; try reflexivity; lia.
  - change 0x0F with (Z.ones 4). apply header_seed; try reflexivity; lia.
  - change 0x7 with (Z.ones 3). apply header_seed; try reflexivity; lia.
Qed.

(** The decoding step of [convert] on a well-formed sequence. *)
Lemma convert_decode_sequence (src : list char8_t) (pos : nat) (bs : list char8_t) :
  occurs_at src pos bs ->
  sequence_shape bs ->
  (pos + length bs <= length src)%nat ->
  cppunicode.decode_step src pos = Value (Some ((pos + length bs)%nat, sequence_value bs)).
Proof.
  intros Hocc Hshape Hfit.
  destruct bs as [ | b0 [ | b1 [ | b2 [ | b3 [ | ? ?]]]]]; cbn in Hshape, Hfit; try contradiction;
    reads_of Hocc;
    destruct (utf8_header_byte_cases b0 0) as (Hh1 & Hh2 & Hh3 & Hh4);
    unfold cppunicode.decode_step; rewrite Hread0; cbn [bind].
  - rewrite Hh1 by lia.
    rewrite truncation_test_passes by lia.
    cbn; f_equal; f_equal; f_equal; lia.
  - destruct Hshape as (Hb0 & Hb1). rewrite Hh2 by lia.
    rewrite truncation_test_passes by lia.
    change (Z.to_nat 1) with 1%nat.
    rewrite (convert_trail_step src _ _ _ b1) by (auto; lia).
    cbn; f_equal; f_equal; f_equal; lia.
  - destruct Hshape as (Hb0 & Hb1 & Hb2). rewrite Hh3 by lia.
    rewrite truncation_test_passes by lia.
    change (Z.to_nat 2) with 2%nat.
    unfold is_trail in *.
    rewrite (convert_trail_step src _ _ _ b1) by (auto; lia).
    rewrite (convert_trail_step src _ _ _ b2) by (auto; lia).
    cbn; f_equal; f_equal; f_equal; lia.
  - destruct Hshape as (Hb0 & Hb1 & Hb2 & Hb3). rewrite Hh4 by lia.
    rewrite truncation_test_passes by lia.
    change (Z.to_nat 3) with 3%nat.
    unfold is_trail in *.
    rewrite (convert_trail_step src _ _ _ b1) by (auto; lia).
    rewrite (convert_trail_step src _ _ _ b2) by (auto; lia).
    rewrite (convert_trail_step src _ _ _ b3) by (auto; lia).
    cbn; f_equal; f_equal; f_equal; lia.
Qed.

(** ** The reference encoder produces well-formed sequences *)

Lemma u8_byte_of_Z (z : Z) : 0 <= z < 256 -> u8 (reference.byte_of_Z z) = z.
Proof.
  intros Hz. unfold reference.byte_of_Z, u8. rewrite Z.mod_small by lia.
  destruct (Byte.of_N (Z.to_N z)) as [b | ] eqn:Hb.
  - apply Byte.to_of_N in Hb. rewrite Hb. lia.
  - apply Byte.of_N_None_iff in Hb. lia.
Qed.

Lemma header_byte_arith (base x k : Z) :
  0 <= k -> base mod 2 ^ k = 0 -> 0 <= x < 2 ^ k -> Z.lor base x = base + x.
Proof.
  intros Hk Hbase Hx.
  assert (Hpow : 2 ^ k <> 0) by (apply Z.pow_nonzero; lia).
  pose proof (Z.div_mod base (2 ^ k) Hpow) as Hdm. rewrite Hbase, Z.add_0_r in Hdm.
  rewrite Hdm at 1 2. rewrite (Z.mul_comm (2 ^ k)). now apply lor_disjoint.
Qed.

Lemma trail_byte_arith (x : Z) : Z.lor 0x80 (Z.land x 0x3F) = 0x80 + x mod 64.
Proof.
  change 0x3F with (Z.ones 6). rewrite Z.land_ones by lia.
  apply (header_byte_arith 0x80 _ 6); [ lia | reflexivity | apply Z.mod_pos_bound; lia ].
Qed.

Ltac div_arith :=
  rewrite ?Z.shiftr_div_pow2 by lia;
  change (2 ^ 3) with 8 in *; change (2 ^ 4) with 16 in *; change (2 ^ 5) with 32 in *;
  change (2 ^ 6) with 64 in *; change (2 ^ 12) with 4096 in *; change (2 ^ 18) with 262144 in *;
  Z.div_mod_to_equations; lia.

Lemma encode_well_formed (cp : Z) :
  0 <= cp <= 0x10FFFF ->
  sequence_shape (reference.utf8_encode cp) /\
  sequence_value (reference.utf8_encode cp) = cp.
Proof.
  intros Hcp. unfold reference.utf8_encode, is_trail.
  destruct (Z.ltb_spec cp 0x80) as [H1 | H1];
    [ | destruct (Z.ltb_spec cp 0x800) as [H2 | H2];
        [ | destruct (Z.ltb_spec cp 0x10000) as [H3 | H3] ] ];
    cbn [sequence_shape sequence_value]; unfold is_trail;
    rewrite ?trail_byte_arith.
  - rewrite u8_byte_of_Z by lia. lia.
  - rewrite (header_byte_arith 0xC0 _ 5) by (try reflexivity; div_arith).
    rewrite !u8_byte_of_Z by div_arith. div_arith.
  - rewrite (header_byte_arith 0xE0 _ 4) by (try reflexivity; div_arith).
    rewrite !u8_byte_of_Z by div_arith. div_arith.
  - rewrite (header_byte_arith 0xF0 _ 3) by (try reflexivity; div_arith).
    rewrite !u8_byte_of_Z by div_arith. div_arith.
Qed.

Lemma encode_length (cp : Z) : (1 <= length (reference.utf8_encode cp) <= 4)%nat.
Proof.
  unfold reference.utf8_encode.
  destruct (cp <? 0x80), (cp <? 0x800), (cp <? 0x10000); cbn; lia.
Qed.

Lemma is_scalar_range (cp : Z) : reference.is_scalar cp = true -> 0 <= cp <= 0x10FFFF.
Proof.
  unfold reference.is_scalar. intros Hcp.
  apply andb_true_iff in Hcp as [Hcp _]. apply andb_true_iff in Hcp as [Hlo Hhi].
  apply Z.leb_le in Hlo, Hhi. lia.
Qed.

Lemma occurs_at_self (bs : list char8_t) : occurs_at bs 0 bs.
Proof. intros k b Hk. unfold read. cbn. now rewrite Hk. Qed.

(** ** Round trip *)

(** C7: for every code point of [0, 0x10FFFF] outside the surrogate range,
    the lazy decoder applied to its standard UTF-8 encoding yields the code
    point and advances to the end of the encoding, and the decoding step of
    [convert] yields the code point and consumes the whole encoding. *)
Theorem utf8_round_trip (cp : Z) :
  reference.is_scalar cp = true ->
  unic.operator_deref (reference.utf8_encode cp) (unic.begin (reference.utf8_encode cp))
    = Value cp /\
  unic.operator_inc (reference.utf8_encode cp) (unic.begin (reference.utf8_encode cp))
    = Value (unic.end_ (reference.utf8_encode cp)) /\
  cppunicode.decode_step (reference.utf8_encode cp) 0
    = Value (Some (length (reference.utf8_encode cp), cp)).
Proof.
  intros Hscalar. apply is_scalar_range in Hscalar.
  destruct (encode_well_formed cp Hscalar) as [Hshape Hvalue].
  set (bs := reference.utf8_encode cp) in *.
  repeat split.
  - rewrite <- Hvalue. apply lazy_deref_sequence; cbn; auto using occurs_at_self.
  - rewrite (lazy_inc_sequence bs (unic.begin bs) bs); cbn; auto using occurs_at_self.
  - rewrite <- Hvalue. apply (convert_decode_sequence bs 0 bs); auto using occurs_at_self.
Qed.

(** The round trip at U+20AC. *)
Lemma utf8_round_trip_euro :
  reference.is_scalar 0x20AC = true /\
  unic.operator_deref (reference.utf8_encode 0x20AC) (unic.begin (reference.utf8_encode 0x20AC))
    = Value 0x20AC /\
  unic.operator_inc (reference.utf8_encode 0x20AC) (unic.begin (reference.utf8_encode 0x20AC))
    = Value (unic.end_ (reference.utf8_encode 0x20AC)) /\
  cppunicode.decode_step (reference.utf8_encode 0x20AC) 0
    = Value (Some (length (reference.utf8_encode 0x20AC), 0x20AC)).
Proof. split; [ reflexivity | apply (utf8_round_trip 0x20AC); reflexivity ]. Defined.

(** ** Size agreement *)

Lemma occurs_at_app (pre bs post : list char8_t) :
  occurs_at (pre ++ bs ++ post) (length pre) bs.
Proof.
  intros k b Hk. unfold read.
  rewrite nth_error_app2 by lia.
  replace (length pre + k - length pre)%nat with k by lia.
  rewrite nth_error_app1 by (apply nth_error_Some; congruence).
  now rewrite Hk.
Qed.

Lemma encode_all_length (cps : list Z) :
  (length cps <= length (reference.utf8_encode_all cps))%nat.
Proof.
  unfold reference.utf8_encode_all.
  induction cps as [ | cp cps IH]; cbn [flat_map length]; [ lia | ].
  rewrite length_app. pose proof (encode_length cp). lia.
Qed.

(** Copying out of the lazy range over the encoding of [cps], from the
    offset where that encoding starts, writes the code points [cps] in
    order. *)
Lemma copy_encoded {Out : Type} {output : unic.output_iterator Out} (cps : list Z) :
  Forall (fun cp => 0 <= cp <= 0x10FFFF) cps ->
  forall (pre : list char8_t) (fuel : nat) (out : Out),
    (length cps <= fuel)%nat ->
    unic.copy (input := unic.from_utf8_input (pre ++ reference.utf8_encode_all cps)) fuel
      {| unic.m_begin := length pre;
         unic.m_end := length (pre ++ reference.utf8_encode_all cps) |}
      (unic.end_ (pre ++ reference.utf8_encode_all cps)) out
    = assign_all out cps.
Proof.
  induction 1 as [ | cp cps Hcp Hcps IH]; intros pre fuel out Hfuel.
  - cbn [reference.utf8_encode_all flat_map assign_all]. rewrite app_nil_r.
    destruct fuel; cbn [unic.copy unic.iter_eqb unic.from_utf8_input];
      unfold unic.operator_eq; cbn [unic.end_ unic.m_begin]; now rewrite Nat.eqb_refl.
  - destruct fuel as [ | fuel]; [ cbn in Hfuel; lia | ].
    cbn [reference.utf8_encode_all flat_map assign_all].
    fold (reference.utf8_encode_all cps).
    set (bs := reference.utf8_encode cp).
    set (rest := reference.utf8_encode_all cps).
    set (src := pre ++ bs ++ rest).
    pose proof (encode_length cp) as Hlen. fold bs in Hlen.
    destruct (encode_well_formed cp Hcp) as [Hshape Hvalue]. fold bs in Hshape, Hvalue.
    assert (Hsrc : length src = (length pre + length bs + length rest)%nat).
    { unfold src. rewrite !length_app. lia. }
    set (it := {| unic.m_begin := length pre; unic.m_end := length src |}).
    cbn [unic.copy unic.iter_eqb unic.deref unic.incr unic.from_utf8_input].
    unfold unic.operator_eq. cbn [unic.end_ unic.m_begin it].
    destruct (Nat.eqb_spec (length pre) (length src)) as [Heq | _]; [ lia | ].
    rewrite (lazy_deref_sequence src it bs), Hvalue;
      [ | apply occurs_at_app | assumption | cbn; lia ].
    cbn [bind]. destruct (unic.assign out cp) as [out' | e | | ]; cbn [bind]; try reflexivity.
    rewrite (lazy_inc_sequence src it bs);
      [ | apply occurs_at_app | assumption | cbn; lia ].
    cbn [bind unic.m_begin unic.m_end it].
    specialize (IH (pre ++ bs) fuel out').
    rewrite <- app_assoc in IH. fold src in IH. rewrite length_app in IH.
    apply IH. cbn in Hfuel. lia.
Qed.

(** Over any input iterator, the size loop returns the number of units the
    copy into a [to_utf16_iter] has written, whenever the copy completes. *)
Lemma size_loop_agrees_with_copy {It : Type} {input : unic.input_iterator It} (fuel : nat) :
  forall (first last : It) (sink sink' : unic.to_utf16_iter) (size : Z),
    unic.copy fuel first last sink = Value sink' ->
    unic.to_utf16_size_loop fuel first last size =
    Value (size + Z.of_nat (length (unic.m_iter sink')) - Z.of_nat (length (unic.m_iter sink))).
Proof.
  induction fuel as [ | fuel IH]; intros first last sink sink' size Hcopy;
    cbn [unic.copy unic.to_utf16_size_loop] in *.
  - destruct (unic.iter_eqb first last); [ | discriminate ].
    injection Hcopy as <-. f_equal. lia.
  - destruct (unic.iter_eqb first last).
    + injection Hcopy as <-. f_equal. lia.
    + destruct (unic.deref first) as [cp | e | | ]; cbn [bind] in *; try discriminate.
      cbn [unic.assign unic.to_utf16_output] in Hcopy. unfold unic.append in Hcopy.
      destruct (cp <=? 0xFFFF); [ | destruct (cp <=? 0x10FFFF) ]; cbn [bind] in *;
        try discriminate;
        (destruct (unic.incr first) as [first' | e | | ]; cbn [bind] in *; try discriminate;
         rewrite (IH _ _ _ _ _ Hcopy); f_equal; cbn [unic.m_iter]; rewrite length_app; cbn; lia).
Qed.

Lemma append_all_succeeds (cps : list Z) :
  Forall (fun cp => 0 <= cp <= 0x10FFFF) cps ->
  forall sink : unic.to_utf16_iter, exists sink', assign_all sink cps = Value sink'.
Proof.
  induction 1 as [ | cp cps Hcp _ IH]; intros sink; cbn [assign_all].
  - now exists sink.
  - cbn [unic.assign unic.to_utf16_output]. unfold unic.append.
    destruct (cp <=? 0xFFFF); [ cbn [bind]; apply IH | ].
    destruct (Z.leb_spec cp 0x10FFFF); [ cbn [bind]; apply IH | lia ].
Qed.

Lemma scalars_in_range (cps : list Z) :
  forallb reference.is_scalar cps = true -> Forall (fun cp => 0 <= cp <= 0x10FFFF) cps.
Proof.
  intros Hall. apply Forall_forall. intros cp Hin.
  apply is_scalar_range. rewrite forallb_forall in Hall. now apply Hall.
Qed.

(** C6: on valid UTF-8, that is on the encoding of a sequence of scalar
    values, the encoding pass [to_utf16] completes and the size estimator
    [to_utf16_size] returns exactly the number of units it has written. *)
Theorem to_utf16_size_agrees (cps : list Z) :
  forallb reference.is_scalar cps = true ->
  exists units : list Z,
    unic.to_utf16 (reference.utf8_encode_all cps) [] = Value units /\
    unic.to_utf16_size (reference.utf8_encode_all cps) = Value (Z.of_nat (length units)).
Proof.
  intros Hvalid. apply scalars_in_range in Hvalid.
  pose proof (copy_encoded (output := unic.to_utf16_output) cps Hvalid []
                (length (reference.utf8_encode_all cps)) {| unic.m_iter := [] |}
                (encode_all_length cps)) as Hcopy.
  cbn [app length] in Hcopy.
  destruct (append_all_succeeds cps Hvalid {| unic.m_iter := [] |}) as [sink' Hsink].
  rewrite Hsink in Hcopy.
  exists (unic.m_iter sink'). split.
  - unfold unic.to_utf16, unic.to_utf32, unic.begin. now rewrite Hcopy.
  - unfold unic.to_utf16_size, unic.begin.
    rewrite (size_loop_agrees_with_copy _ _ _ _ _ 0 Hcopy). f_equal. cbn. lia.
Qed.

(** Size agreement on the encoding of U+0041, U+20AC, U+10348. *)
Lemma to_utf16_size_agrees_mixed :
  forallb reference.is_scalar [0x41; 0x20AC; 0x10348] = true /\
  exists units : list Z,
    unic.to_utf16 (reference.utf8_encode_all [0x41; 0x20AC; 0x10348]) [] = Value units /\
    unic.to_utf16_size (reference.utf8_encode_all [0x41; 0x20AC; 0x10348])
      = Value (Z.of_nat (length units)).
Proof.
  split; [ reflexivity | apply (to_utf16_size_agrees [0x41; 0x20AC; 0x10348]); reflexivity ].
Defined.

(** The same copy into a plain sink of code points gives back the sequence
    that was encoded. *)
Lemma assign_all_u32 (cps : list Z) :
  forall out : list Z, assign_all out cps = Value (out ++ cps).
Proof.
  induction cps as [ | cp cps IH]; intros out; cbn [assign_all].
  - now rewrite app_nil_r.
  - cbn [unic.assign unic.u32_output bind]. rewrite IH. now rewrite <- app_assoc.
Qed.

Lemma to_utf32_round_trip (cps : list Z) :
  forallb reference.is_scalar cps = true ->
  unic.to_utf32 (reference.utf8_encode_all cps) [] = Value cps.
Proof.
  intros Hvalid. apply scalars_in_range in Hvalid.
  unfold unic.to_utf32, unic.begin.
  rewrite (copy_encoded cps Hvalid [] _ [] (encode_all_length cps)).
  apply assign_all_u32.
Qed.

(** ** The lazy drivers stay inside the range and terminate *)

Lemma lazy_trail_loop_safe (src : list char8_t) (n : nat) :
  forall (pos : nat) (cp : Z),
    (pos + n <= length src)%nat -> returns_or_throws (unic.trail_loop src n pos cp).
Proof.
  induction n as [ | n IH]; intros pos cp Hfit; cbn [unic.trail_loop].
  - exact I.
  - destruct (read_in_bounds src pos) as [b ->]; [ lia | ]. cbn [bind].
    destruct ((u8 b <? 0x80) || (0xBF <? u8 b)); [ exact I | ].
    apply IH. lia.
Qed.

Lemma lazy_deref_safe (src : list char8_t) (it : unic.iterator) :
  (unic.m_begin it < unic.m_end it <= length src)%nat ->
  returns_or_throws (unic.operator_deref src it).
Proof.
  intros Hit. unfold unic.operator_deref.
  destruct (read_in_bounds src (unic.m_begin it)) as [header ->]; [ lia | ]. cbn [bind].
  fold (length_test it header).
  destruct (length_test it header) eqn:Htest; [ exact I | ].
  apply length_test_false in Htest.
  destruct (unic.compute_byte_count header =? 1); [ exact I | ].
  apply lazy_trail_loop_safe. lia.
Qed.

Lemma lazy_inc_safe (src : list char8_t) (it : unic.iterator) :
  (unic.m_begin it < unic.m_end it <= length src)%nat ->
  (exists e, unic.operator_inc src it = Throw e) \/
  exists it',
    unic.operator_inc src it = Value it' /\
    unic.m_end it' = unic.m_end it /\
    (unic.m_begin it < unic.m_begin it' <= unic.m_end it)%nat.
Proof.
  intros Hit. unfold unic.operator_inc.
  destruct (read_in_bounds src (unic.m_begin it)) as [header ->]; [ lia | ]. cbn [bind].
  fold (length_test it header).
  destruct (length_test it header) eqn:Htest; [ left; eauto | right ].
  apply length_test_false in Htest.
  eexists. split; [ reflexivity | ]. cbn [unic.m_begin unic.m_end]. split; lia.
Qed.

Section drivers_safe.

Variable src : list char8_t.

Let well_placed (it : unic.iterator) : Prop :=
  unic.m_end it = length src /\ (unic.m_begin it <= unic.m_end it)%nat.

Lemma not_at_end (it : unic.iterator) :
  well_placed it -> unic.operator_eq it (unic.end_ src) = false ->
  (unic.m_begin it < unic.m_end it <= length src)%nat.
Proof.
  intros [Hend Hle] Hne. unfold unic.operator_eq in Hne. cbn [unic.end_ unic.m_begin] in Hne.
  apply Nat.eqb_neq in Hne. lia.
Qed.

Lemma to_utf16_size_loop_safe (fuel : nat) :
  forall (it : unic.iterator) (size : Z),
    well_placed it -> (unic.m_end it - unic.m_begin it <= fuel)%nat ->
    returns_or_throws
      (unic.to_utf16_size_loop (input := unic.from_utf8_input src) fuel it (unic.end_ src) size).
Proof.
  induction fuel as [ | fuel IH]; intros it size Hwp Hfuel;
    cbn [unic.to_utf16_size_loop unic.iter_eqb unic.deref unic.incr unic.from_utf8_input];
    destruct (unic.operator_eq it (unic.end_ src)) eqn:Hne; try exact I;
    pose proof (not_at_end it Hwp Hne) as Hit; [ lia | ].
  pose proof (lazy_deref_safe src it Hit) as Hderef.
  destruct (unic.operator_deref src it) as [cp | e | | ]; cbn [bind]; try exact Hderef.
  destruct (cp <=? 0xFFFF); [ | destruct (cp <=? 0x10FFFF) ]; cbn [bind]; try exact I;
    (destruct (lazy_inc_safe src it Hit) as [[e ->] | (it' & -> & Hend' & Hbegin')];
     cbn [bind]; [ exact I | ];
     apply IH; [ destruct Hwp; split; lia | lia ]).
Qed.

Lemma copy_to_utf16_safe (fuel : nat) :
  forall (it : unic.iterator) (sink : unic.to_utf16_iter),
    well_placed it -> (unic.m_end it - unic.m_begin it <= fuel)%nat ->
    returns_or_throws
      (unic.copy (input := unic.from_utf8_input src) fuel it (unic.end_ src) sink).
Proof.
  induction fuel as [ | fuel IH]; intros it sink Hwp Hfuel;
    cbn [unic.copy unic.iter_eqb unic.deref unic.incr unic.from_utf8_input];
    destruct (unic.operator_eq it (unic.end_ src)) eqn:Hne; try exact I;
    pose proof (not_at_end it Hwp Hne) as Hit; [ lia | ].
  pose proof (lazy_deref_safe src it Hit) as Hderef.
  destruct (unic.operator_deref src it) as [cp | e | | ]; cbn [bind]; try exact Hderef.
  cbn [unic.assign unic.to_utf16_output]. unfold unic.append.
  destruct (cp <=? 0xFFFF); [ | destruct (cp <=? 0x10FFFF) ]; cbn [bind]; try exact I;
    (destruct (lazy_inc_safe src it Hit) as [[e ->] | (it' & -> & Hend' & Hbegin')];
     cbn [bind]; [ exact I | ];
     apply IH; [ destruct Hwp; split; lia | lia ]).
Qed.

(** On every source the size estimator and the encoding pass either return
    or throw. *)
Lemma to_utf16_size_safe : returns_or_throws (unic.to_utf16_size src).
Proof.
  unfold unic.to_utf16_size.
  apply to_utf16_size_loop_safe; [ split | ]; cbn [unic.begin unic.m_begin unic.m_end]; lia.
Qed.

Lemma to_utf16_safe (out : list Z) : returns_or_throws (unic.to_utf16 src out).
Proof.
  unfold unic.to_utf16, unic.to_utf32.
  pose proof (copy_to_utf16_safe (length src) (unic.begin src) {| unic.m_iter := out |}) as Hsafe.
  destruct (unic.copy _ _ _ _) as [r | e | | ]; cbn [bind]; try exact I;
    apply Hsafe; try split; cbn [unic.begin unic.m_begin unic.m_end]; lia.
Qed.

End drivers_safe.

(** A code point above 0x10FFFF reaching the size loop makes it throw, at the
    position of the iterator that produced it. *)
Lemma size_loop_out_of_range {It : Type} {input : unic.input_iterator It}
    (fuel : nat) (beg end_ : It) (size cp : Z) :
  unic.iter_eqb beg end_ = false ->
  unic.deref beg = Value cp ->
  0x10FFFF < cp ->
  unic.to_utf16_size_loop (S fuel) beg end_ size =
  Throw (unic.range_error (unic.snapshot beg)).
Proof.
  intros Hne Hderef Hcp. cbn [unic.to_utf16_size_loop]. rewrite Hne, Hderef. cbn [bind].
  destruct (Z.leb_spec cp 0xFFFF); [ lia | ].
  destruct (Z.leb_spec cp 0x10FFFF); [ lia | reflexivity ].
Qed.

(** ** Bounds on decoded code points *)

Lemma trail_test_false (b : char8_t) :
  (u8 b <? 0x80) || (0xBF <? u8 b) = false -> is_trail b.
Proof. destruct (trail_test b) as [[-> _] | [_ Hb]]; [ discriminate | auto ]. Qed.

Lemma pow64_pos (n : nat) : 1 <= 64 ^ Z.of_nat n.
Proof.
  induction n as [ | n IH]; [ cbn; lia | ].
  rewrite Nat2Z.inj_succ, Z.pow_succ_r by lia. lia.
Qed.

(** Each trailing byte multiplies the bound of the accumulator by 64; as long
    as the final bound fits 32 bits no reduction modulo [2^32] takes place. *)
Lemma convert_trail_loop_bound (src : list char8_t) (n : nat) :
  forall (pos : nat) (cp bound : Z) (pos' : nat) (cp' : Z),
    0 <= cp < bound ->
    bound * 64 ^ Z.of_nat n <= 2 ^ 32 ->
    cppunicode.trail_loop src n pos cp = Value (Some (pos', cp')) ->
    pos' = (pos + n)%nat /\ 0 <= cp' < bound * 64 ^ Z.of_nat n.
Proof.
  induction n as [ | n IH]; intros pos cp bound pos' cp' Hcp Hfits Hloop.
  - cbn in Hloop. injection Hloop as <- <-. cbn. split; lia.
  - rewrite Nat2Z.inj_succ, Z.pow_succ_r in * by lia.
    pose proof (pow64_pos n) as Hpow.
    cbn [cppunicode.trail_loop] in Hloop.
    destruct (read_cases src pos) as [Hread | [b Hread]]; rewrite Hread in Hloop;
      cbn [bind] in Hloop; [ discriminate | ].
    unfold cppunicode.utf8_trail_byte in Hloop.
    destruct ((u8 b <? 0x80) || (0xBF <? u8 b)) eqn:Htest; [ discriminate | ].
    apply trail_test_false in Htest.
    rewrite fold_trail_byte in Hloop by (auto; change (2 ^ 26) with 67108864;
                                         change (2 ^ 32) with 4294967296 in Hfits; nia).
    apply (IH _ _ (bound * 64)) in Hloop as [-> Hcp'].
    + split; [ lia | ]. unfold is_trail in Htest. nia.
    + unfold is_trail in Htest. lia.
    + nia.
Qed.

Lemma lazy_trail_loop_bound (src : list char8_t) (n : nat) :
  forall (pos : nat) (cp bound cp' : Z),
    0 <= cp < bound ->
    bound * 64 ^ Z.of_nat n <= 2 ^ 32 ->
    unic.trail_loop src n pos cp = Value cp' ->
    0 <= cp' < bound * 64 ^ Z.of_nat n.
Proof.
  induction n as [ | n IH]; intros pos cp bound cp' Hcp Hfits Hloop.
  - cbn in Hloop. injection Hloop as <-. cbn. lia.
  - rewrite Nat2Z.inj_succ, Z.pow_succ_r in * by lia.
    pose proof (pow64_pos n) as Hpow.
    cbn [unic.trail_loop] in Hloop.
    destruct (read_cases src pos) as [Hread | [b Hread]]; rewrite Hread in Hloop;
      cbn [bind] in Hloop; [ discriminate | ].
    destruct ((u8 b <? 0x80) || (0xBF <? u8 b)) eqn:Htest; [ discriminate | ].
    apply trail_test_false in Htest.
    rewrite fold_trail_byte in Hloop by (auto; change (2 ^ 26) with 67108864;
                                         change (2 ^ 32) with 4294967296 in Hfits; nia).
    apply (IH _ _ (bound * 64)) in Hloop.
    + nia.
    + unfold is_trail in Htest. lia.
    + nia.
Qed.

Lemma utf8_header_byte_seed (b : char8_t) (out : Z) :
  match cppunicode.utf8_header_byte b out with
  | (0, seed) => 0 <= seed < 0x80
  | (1, seed) => 0 <= seed < 0x20
  | (2, seed) => 0 <= seed < 0x10
  | (3, seed) => 0 <= seed < 0x8
  | (byte_cnt, _) => byte_cnt = -1
  end.
Proof. destruct b; vm_compute; repeat split; congruence. Qed.

Lemma decode_step_bound (src : list char8_t) (pos pos' : nat) (cp : Z) :
  cppunicode.decode_step src pos = Value (Some (pos', cp)) ->
  ((pos' = pos + 1)%nat /\ 0 <= cp < 0x80) \/
  ((pos' = pos + 2)%nat /\ 0 <= cp < 0x800) \/
  ((pos' = pos + 3)%nat /\ 0 <= cp < 0x10000) \/
  ((pos' = pos + 4)%nat /\ 0 <= cp < 0x200000).
Proof.
  unfold cppunicode.decode_step. intros Hstep.
  destruct (read_cases src pos) as [Hread | [b Hread]]; rewrite Hread in Hstep;
    cbn [bind] in Hstep; [ discriminate | ].
  pose proof (utf8_header_byte_seed b 0) as Hseed.
  destruct (cppunicode.utf8_header_byte b 0) as [byte_cnt seed].
  destruct byte_cnt as [ | [ [ | | ] | [ | | ] | ] | ]; cbn in Hseed; try discriminate Hseed;
    destruct (_ || _) eqn:Htest in Hstep; try discriminate Hstep.
  - apply (convert_trail_loop_bound _ _ _ _ 0x80) in Hstep as [-> Hcp];
      [ change (0x80 * 64 ^ Z.of_nat (Z.to_nat 0)) with 0x80 in Hcp; left; lia
      | lia | vm_compute; congruence ].
  - apply (convert_trail_loop_bound _ _ _ _ 0x8) in Hstep as [-> Hcp];
      [ change (0x8 * 64 ^ Z.of_nat (Z.to_nat 3)) with 0x200000 in Hcp; right; right; right; lia
      | lia | vm_compute; congruence ].
  - apply (convert_trail_loop_bound _ _ _ _ 0x10) in Hstep as [-> Hcp];
      [ change (0x10 * 64 ^ Z.of_nat (Z.to_nat 2)) with 0x10000 in Hcp; right; right; left; lia
      | lia | vm_compute; congruence ].
  - apply (convert_trail_loop_bound _ _ _ _ 0x20) in Hstep as [-> Hcp];
      [ change (0x20 * 64 ^ Z.of_nat (Z.to_nat 1)) with 0x800 in Hcp; right; left; lia
      | lia | vm_compute; congruence ].
  - cbn in Htest. discriminate Htest.
Qed.

(** X1: a code point produced by the decoding step of [convert] is bounded by
    the length of its sequence: below 0x80 for one byte, 0x800 for two,
    0x10000 for three and 0x200000 for four; the step consumes between one
    and four bytes. *)
Theorem decode_step_value_bound (src : list char8_t) (pos pos' : nat) (cp : Z) :
  cppunicode.decode_step src pos = Value (Some (pos', cp)) ->
  ((pos' = pos + 1)%nat /\ 0 <= cp < 0x80) \/
  ((pos' = pos + 2)%nat /\ 0 <= cp < 0x800) \/
  ((pos' = pos + 3)%nat /\ 0 <= cp < 0x10000) \/
  ((pos' = pos + 4)%nat /\ 0 <= cp < 0x200000).
Proof. apply decode_step_bound. Qed.

(** The bound at E0 A0 80: three bytes, U+0800. *)
Lemma decode_step_value_bound_E0_A0_80 :
  cppunicode.decode_step [xe0; xa0; x80] 0 = Value (Some (3%nat, 0x800)) /\
  (((3 = 0 + 1)%nat /\ 0 <= 0x800 < 0x80) \/
   ((3 = 0 + 2)%nat /\ 0 <= 0x800 < 0x800) \/
   ((3 = 0 + 3)%nat /\ 0 <= 0x800 < 0x10000) \/
   ((3 = 0 + 4)%nat /\ 0 <= 0x800 < 0x200000)).
Proof.
  split; [ reflexivity | ].
  apply (decode_step_value_bound [xe0; xa0; x80] 0 3 0x800). reflexivity.
Defined.

Lemma convert_loop_count_bound (src : list char8_t) (fuel : nat) :
  forall (pos : nat) (u16out u16out' : cppunicode.destination) (size n : Z),
    (pos <= length src)%nat ->
    cppunicode.convert_loop fuel src pos u16out size = Value (n, u16out') ->
    n = -1 \/ size <= n <= size + (Z.of_nat (length src) - Z.of_nat pos).
Proof.
  induction fuel as [ | fuel IH]; intros pos u16out u16out' size n Hpos Hloop;
    cbn [cppunicode.convert_loop] in Hloop;
    destruct (Nat.leb_spec (length src) pos) as [Hend | Hmore];
    try (injection Hloop as <- <-; right; lia); try discriminate.
  destruct (decode_step_in_bounds src pos Hmore) as [Hstep | (pos' & cp & Hstep & Hpos')];
    rewrite Hstep in Hloop; cbn [bind] in Hloop.
  - injection Hloop as <- <-. now left.
  - pose proof (decode_step_bound src pos pos' cp Hstep) as Hbound.
    unfold cppunicode.encode_step in Hloop.
    destruct (Z.ltb_spec cp 0xFFFF) as [Hbmp | Hsup];
      apply IH in Hloop as [Hfail | Hcount]; try (now left); try lia; right; lia.
Qed.

(** The units the loop of [convert] writes through a non-null destination
    are appended to those already there, and there are no more of them than
    bytes left in the source, whether the loop ends with a count or with the
    sentinel. *)
Lemma convert_loop_written (src : list char8_t) (fuel : nat) :
  forall (pos : nat) (written : list Z) (u16out' : cppunicode.destination) (size n : Z),
    (pos <= length src)%nat ->
    cppunicode.convert_loop fuel src pos (Some written) size = Value (n, u16out') ->
    exists units,
      u16out' = Some (written ++ units) /\
      (length units <= length src - pos)%nat /\
      (n = -1 \/ n = size + Z.of_nat (length units)).
Proof.
  induction fuel as [ | fuel IH]; intros pos written u16out' size n Hpos Hloop;
    cbn [cppunicode.convert_loop] in Hloop;
    destruct (Nat.leb_spec (length src) pos) as [Hend | Hmore];
    try (injection Hloop as <- <-; exists []; rewrite app_nil_r; cbn [length];
         repeat split; [ lia | right; lia ]);
    try discriminate.
  destruct (decode_step_in_bounds src pos Hmore) as [Hstep | (pos' & cp & Hstep & Hpos')];
    rewrite Hstep in Hloop; cbn [bind] in Hloop.
  - injection Hloop as <- <-. exists []. rewrite app_nil_r. cbn [length].
    repeat split; [ lia | now left ].
  - pose proof (decode_step_bound src pos pos' cp Hstep) as Hbound.
    unfold cppunicode.encode_step in Hloop. cbn [cppunicode.store option_map] in Hloop.
    destruct (Z.ltb_spec cp 0xFFFF) as [Hbmp | Hsup];
      apply IH in Hloop as (units & -> & Hlen & Hn); try lia;
      rewrite <- app_assoc; eexists; (split; [ reflexivity | ]);
      rewrite length_app; cbn [length]; (split; [ lia | ]);
      (destruct Hn as [Hn | Hn]; [ now left | right; lia ]).
Qed.

(** X2: a destination with room for one unit per source byte is always large
    enough.  [convert] returns on every source; its result is the sentinel or
    a count between 0 and the number of source bytes; and the units written
    through a non-null destination, appended to those already there, are
    never more than the number of source bytes, whether [convert] ends with
    a count (then exactly that many) or with the sentinel.  A null destination
    stays null. *)
Theorem convert_count_bound (src : list char8_t) (u16out : cppunicode.destination) :
  exists (n : Z) (u16out' : cppunicode.destination),
    cppunicode.convert src u16out = Value (n, u16out') /\
    (n = -1 \/ 0 <= n <= Z.of_nat (length src)) /\
    match u16out, u16out' with
    | Some written, Some written' =>
        exists units,
          written' = written ++ units /\
          (length units <= length src)%nat /\
          (n = -1 \/ n = Z.of_nat (length units))
    | None, None => True
    | _, _ => False
    end.
Proof.
  destruct (convert_loop_returns src (length src) 0 u16out 0) as (n & u16out' & Hret & Hrel);
    [ lia | ].
  exists n, u16out'. split; [ exact Hret | ]. split.
  - apply convert_loop_count_bound in Hret; lia.
  - destruct u16out as [written | ]; [ | destruct u16out'; [ contradiction | exact I ] ].
    apply convert_loop_written in Hret as (units & -> & Hlen & Hn); [ | lia ].
    exists units. repeat split; [ lia | lia ].
Qed.

(** X3: a code point produced by [operator*] lies in [0, 0x7FFFFFFF]: the
    six-byte form is the widest the iterator accepts, and no reduction modulo
    [2^32] ever takes place in the decoder. *)
Theorem lazy_deref_value_bound (src : list char8_t) (it : unic.iterator) (cp : Z) :
  unic.operator_deref src it = Value cp -> 0 <= cp <= 0x7FFFFFFF.
Proof.
  unfold unic.operator_deref. intros Hderef.
  destruct (read_cases src (unic.m_begin it)) as [Hread | [b Hread]]; rewrite Hread in Hderef;
    cbn [bind] in Hderef; [ discriminate | ].
  fold (length_test it b) in Hderef.
  destruct (length_test it b) eqn:Htest; [ discriminate | ].
  apply length_test_false in Htest.
  pose proof (u8_range b) as Hb.
  assert (Hcases : unic.compute_byte_count b = 1 \/ unic.compute_byte_count b = 2 \/
                   unic.compute_byte_count b = 3 \/ unic.compute_byte_count b = 4 \/
                   unic.compute_byte_count b = 5 \/ unic.compute_byte_count b = 6).
  { destruct (compute_byte_count_range b); lia. }
  assert (Hmask : forall k, 0 <= k ->
            0 <= char32 (Z.land (u8 b) (Z.ones k)) < 2 ^ k).
  { intros k Hk. rewrite Z.land_ones by lia.
    pose proof (Z.mod_pos_bound (u8 b) (2 ^ k) ltac:(apply Z.pow_pos_nonneg; lia)) as Hmod.
    rewrite char32_small; [ exact Hmod | ].
    assert (u8 b mod 2 ^ k <= u8 b) by (apply Z.mod_le; [ lia | apply Z.pow_pos_nonneg; lia ]).
    change (2 ^ 32) with 4294967296. lia. }
  destruct Hcases as [Hc | [Hc | [Hc | [Hc | [Hc | Hc]]]]]; rewrite Hc in Hderef;
    cbn [Z.eqb Pos.eqb] in Hderef.
  - injection Hderef as <-.
    rewrite compute_byte_count_table in Hc.
    destruct (Z.ltb_spec (u8 b) 0x80); [ lia | ].
    repeat match type of Hc with
           | (if ?c then _ else _) = _ => destruct c; try discriminate Hc
           end.
  - change (Z.shiftr (char8 (Z.lnot 0)) (2 + 1)) with (Z.ones 5) in Hderef.
    apply (lazy_trail_loop_bound _ _ _ _ (2 ^ 5)) in Hderef;
      [ | apply Hmask; lia | vm_compute; congruence ].
    change (2 ^ 5 * 64 ^ Z.of_nat (Z.to_nat (2 - 1))) with 0x800 in Hderef. lia.
  - change (Z.shiftr (char8 (Z.lnot 0)) (3 + 1)) with (Z.ones 4) in Hderef.
    apply (lazy_trail_loop_bound _ _ _ _ (2 ^ 4)) in Hderef;
      [ | apply Hmask; lia | vm_compute; congruence ].
    change (2 ^ 4 * 64 ^ Z.of_nat (Z.to_nat (3 - 1))) with 0x10000 in Hderef. lia.
  - change (Z.shiftr (char8 (Z.lnot 0)) (4 + 1)) with (Z.ones 3) in Hderef.
    apply (lazy_trail_loop_bound _ _ _ _ (2 ^ 3)) in Hderef;
      [ | apply Hmask; lia | vm_compute; congruence ].
    change (2 ^ 3 * 64 ^ Z.of_nat (Z.to_nat (4 - 1))) with 0x200000 in Hderef. lia.
  - change (Z.shiftr (char8 (Z.lnot 0)) (5 + 1)) with (Z.ones 2) in Hderef.
    apply (lazy_trail_loop_bound _ _ _ _ (2 ^ 2)) in Hderef;
      [ | apply Hmask; lia | vm_compute; congruence ].
    change (2 ^ 2 * 64 ^ Z.of_nat (Z.to_nat (5 - 1))) with 0x4000000 in Hderef. lia.
  - change (Z.shiftr (char8 (Z.lnot 0)) (6 + 1)) with (Z.ones 1) in Hderef.
    apply (lazy_trail_loop_bound _ _ _ _ (2 ^ 1)) in Hderef;
      [ | apply Hmask; lia | vm_compute; congruence ].
    change (2 ^ 1 * 64 ^ Z.of_nat (Z.to_nat (6 - 1))) with 0x80000000 in Hderef. lia.
Qed.

(** The bound is reached by the six-byte form FD BF BF BF BF BF. *)
Lemma lazy_deref_value_bound_six_bytes :
  unic.operator_deref [xfd; xbf; xbf; xbf; xbf; xbf]
    (unic.begin [xfd; xbf; xbf; xbf; xbf; xbf]) = Value 0x7FFFFFFF /\
  0 <= 0x7FFFFFFF <= 0x7FFFFFFF.
Proof.
  split; [ reflexivity | ].
  apply (lazy_deref_value_bound [xfd; xbf; xbf; xbf; xbf; xbf]
           (unic.begin [xfd; xbf; xbf; xbf; xbf; xbf])).
  reflexivity.
Defined.

(** ** Surrogate pairs *)

Lemma surrogate_pair_arith (cp : Z) :
  0x10000 <= cp <= 0x10FFFF ->
  let v := char32 (cp - 0x10000) in
  let high := char16 (Z.shiftr v 10 + 0xD800) in
  let low := char16 (Z.land v 0x3FF + 0xDC00) in
  0xD800 <= high <= 0xDBFF /\ 0xDC00 <= low <= 0xDFFF /\
  0x10000 + (high - 0xD800) * 0x400 + (low - 0xDC00) = cp.
Proof.
  intros Hcp. cbv zeta.
  rewrite char32_small by (change (2 ^ 32) with 4294967296; lia).
  rewrite Z.shiftr_div_pow2 by lia.
  change 0x3FF with (Z.ones 10). rewrite Z.land_ones by lia.
  change (2 ^ 10) with 1024.
  rewrite !char16_small by (Z.div_mod_to_equations; lia).
  Z.div_mod_to_equations. lia.
Qed.

(** X4: for a code point of [0x10000, 0x10FFFF], [append] writes two units,
    a high surrogate of [0xD800, 0xDBFF] followed by a low surrogate of
    [0xDC00, 0xDFFF], from which the code point is recovered as
    [0x10000 + (high - 0xD800) * 0x400 + (low - 0xDC00)]. *)
Theorem append_surrogate_pair (self : unic.to_utf16_iter) (cp : Z) :
  0x10000 <= cp <= 0x10FFFF ->
  exists high low : Z,
    unic.append self cp = Value {| unic.m_iter := unic.m_iter self ++ [high; low] |} /\
    0xD800 <= high <= 0xDBFF /\ 0xDC00 <= low <= 0xDFFF /\
    0x10000 + (high - 0xD800) * 0x400 + (low - 0xDC00) = cp.
Proof.
  intros Hcp. pose proof (surrogate_pair_arith cp Hcp) as Hpair. cbv zeta in Hpair.
  unfold unic.append.
  destruct (Z.leb_spec cp 0xFFFF); [ lia | ].
  destruct (Z.leb_spec cp 0x10FFFF); [ | lia ].
  eexists _, _. split; [ reflexivity | exact Hpair ].
Qed.

(** The pair of U+1F600. *)
Lemma append_surrogate_pair_U1F600 :
  0x10000 <= 0x1F600 <= 0x10FFFF /\
  exists high low : Z,
    unic.append {| unic.m_iter := [] |} 0x1F600
      = Value {| unic.m_iter := [] ++ [high; low] |} /\
    0xD800 <= high <= 0xDBFF /\ 0xDC00 <= low <= 0xDFFF /\
    0x10000 + (high - 0xD800) * 0x400 + (low - 0xDC00) = 0x1F600.
Proof.
  split; [ lia | apply (append_surrogate_pair {| unic.m_iter := [] |} 0x1F600); lia ].
Defined.

(** What [append] writes for a code point it accepts. *)
Lemma append_units (self : unic.to_utf16_iter) (cp : Z) :
  cp <= 0x10FFFF ->
  exists units,
    unic.append self cp = Value {| unic.m_iter := unic.m_iter self ++ units |} /\
    Z.of_nat (length units) = (if cp <=? 0xFFFF then 1 else 2).
Proof.
  intros Hcp. unfold unic.append.
  destruct (cp <=? 0xFFFF); [ eexists; split; reflexivity | ].
  destruct (Z.leb_spec cp 0x10FFFF); [ eexists; split; reflexivity | lia ].
Qed.

Lemma encode_step_matches_append
    (cp : Z) (written : list Z) (outstr_size : Z) :
  cp <= 0x10FFFF -> cp <> 0xFFFF ->
  exists units,
    unic.append {| unic.m_iter := written |} cp = Value {| unic.m_iter := written ++ units |} /\
    cppunicode.encode_step cp (Some written) outstr_size
      = (Some (written ++ units), outstr_size + Z.of_nat (length units)) /\
    cppunicode.encode_step cp None outstr_size
      = (None, outstr_size + Z.of_nat (length units)).
Proof.
  intros Hcp Hne. unfold unic.append, cppunicode.encode_step. cbn [unic.m_iter].
  destruct (Z.leb_spec cp 0xFFFF) as [Hbmp | Hsup].
  - destruct (Z.ltb_spec cp 0xFFFF); [ | lia ].
    eexists. repeat split.
  - destruct (Z.ltb_spec cp 0xFFFF); [ lia | ].
    destruct (Z.leb_spec cp 0x10FFFF); [ | lia ].
    eexists. repeat split.
Qed.

(** X5: the two encoders write the same units for every code point up to
    0x10FFFF except 0xFFFF: the encoding half of [convert] stores, and
    counts, exactly the units that [append] writes. *)
Theorem encoders_agree_except_UFFFF
    (cp : Z) (written : list Z) (outstr_size : Z) :
  cp <= 0x10FFFF -> cp <> 0xFFFF ->
  exists units,
    unic.append {| unic.m_iter := written |} cp = Value {| unic.m_iter := written ++ units |} /\
    cppunicode.encode_step cp (Some written) outstr_size
      = (Some (written ++ units), outstr_size + Z.of_nat (length units)) /\
    cppunicode.encode_step cp None outstr_size
      = (None, outstr_size + Z.of_nat (length units)).
Proof. apply encode_step_matches_append. Qed.

Lemma encoders_agree_except_UFFFF_U10000 :
  0x10000 <= 0x10FFFF /\ 0x10000 <> 0xFFFF /\
  exists units,
    unic.append {| unic.m_iter := [] |} 0x10000 = Value {| unic.m_iter := [] ++ units |} /\
    cppunicode.encode_step 0x10000 (Some []) 0 = (Some ([] ++ units), 0 + Z.of_nat (length units)) /\
    cppunicode.encode_step 0x10000 None 0 = (None, 0 + Z.of_nat (length units)).
Proof.
  split; [ lia | split; [ lia | ] ].
  apply (encoders_agree_except_UFFFF 0x10000 [] 0); lia.
Defined.

(** ** The size estimator over code points *)

Lemma read_middle {A : Type} (pre : list A) (x : A) (post : list A) :
  read (pre ++ x :: post) (length pre) = Value x.
Proof.
  unfold read. rewrite nth_error_app2 by lia. now rewrite Nat.sub_diag.
Qed.

Lemma u32_size_loop_step (pre : list Z) (cp : Z) (post : list Z) (fuel : nat) (size : Z) :
  unic.to_utf16_size_loop (input := unic.u32_input (pre ++ cp :: post)) (S fuel)
    (length pre) (length (pre ++ cp :: post)) size
  = if cp <=? 0x10FFFF then
      unic.to_utf16_size_loop (input := unic.u32_input ((pre ++ [cp]) ++ post)) fuel
        (length (pre ++ [cp])) (length ((pre ++ [cp]) ++ post))
        (size + (if cp <=? 0xFFFF then 1 else 2))
    else Throw (unic.range_error (src_pos (length pre))).
Proof.
  cbn [unic.to_utf16_size_loop unic.iter_eqb unic.deref unic.incr unic.snapshot unic.u32_input].
  destruct (Nat.eqb_spec (length pre) (length (pre ++ cp :: post))) as [Heq | _].
  - rewrite length_app in Heq. cbn in Heq. lia.
  - rewrite read_middle. cbn [bind].
    rewrite <- app_assoc. cbn [app]. rewrite (length_app pre [cp]). cbn [length].
    rewrite Nat.add_1_r.
    destruct (Z.leb_spec cp 0xFFFF) as [Hbmp | Hsup].
    + destruct (Z.leb_spec cp 0x10FFFF); [ reflexivity | lia ].
    + destruct (cp <=? 0x10FFFF); reflexivity.
Qed.

Lemma u32_size_loop_accepts (rest : list Z) :
  Forall (fun cp => cp <= 0x10FFFF) rest ->
  forall (pre : list Z) (fuel : nat) (size : Z),
    (length rest <= fuel)%nat ->
    unic.to_utf16_size_loop (input := unic.u32_input (pre ++ rest)) fuel
      (length pre) (length (pre ++ rest)) size
    = Value (size + units_needed rest).
Proof.
  induction 1 as [ | cp rest Hcp _ IH]; intros pre fuel size Hfuel.
  - rewrite app_nil_r.
    destruct fuel; cbn [unic.to_utf16_size_loop unic.iter_eqb unic.u32_input];
      rewrite Nat.eqb_refl; cbn [units_needed]; f_equal; lia.
  - destruct fuel as [ | fuel]; [ cbn in Hfuel; lia | ].
    rewrite u32_size_loop_step.
    destruct (Z.leb_spec cp 0x10FFFF); [ | lia ].
    rewrite IH by (cbn in Hfuel; lia).
    cbn [units_needed]. f_equal. lia.
Qed.

Lemma u32_size_loop_rejects (good : list Z) :
  Forall (fun cp => cp <= 0x10FFFF) good ->
  forall (bad : Z) (post pre : list Z) (fuel : nat) (size : Z),
    0x10FFFF < bad ->
    (length good < fuel)%nat ->
    unic.to_utf16_size_loop (input := unic.u32_input (pre ++ good ++ bad :: post)) fuel
      (length pre) (length (pre ++ good ++ bad :: post)) size
    = Throw (unic.range_error (src_pos (length pre + length good))).
Proof.
  induction 1 as [ | cp good Hcp _ IH]; intros bad post pre fuel size Hbad Hfuel;
    (destruct fuel as [ | fuel]; [ cbn in Hfuel; lia | ]); cbn [app].
  - rewrite u32_size_loop_step.
    destruct (Z.leb_spec bad 0x10FFFF); [ lia | ].
    cbn [length]. now rewrite Nat.add_0_r.
  - rewrite u32_size_loop_step.
    destruct (Z.leb_spec cp 0x10FFFF); [ | lia ].
    rewrite (IH bad post (pre ++ [cp])) by (auto; cbn in Hfuel; lia).
    rewrite length_app. cbn [length]. do 3 f_equal. lia.
Qed.

(** X6: on a sequence of code points that are all at most 0x10FFFF, the size
    estimator over code points returns one unit for each code point up to
    0xFFFF and two for each code point above. *)
Theorem to_utf16_size_u32_counts (cps : list Z) :
  Forall (fun cp => cp <= 0x10FFFF) cps ->
  unic.to_utf16_size_u32 cps = Value (units_needed cps).
Proof.
  intros Hcps. unfold unic.to_utf16_size_u32.
  apply (u32_size_loop_accepts cps Hcps [] (length cps) 0). lia.
Qed.

Lemma to_utf16_size_u32_counts_mixed :
  Forall (fun cp => cp <= 0x10FFFF) [0x41; 0xFFFF; 0x10000] /\
  unic.to_utf16_size_u32 [0x41; 0xFFFF; 0x10000] = Value (units_needed [0x41; 0xFFFF; 0x10000]).
Proof.
  assert (H : Forall (fun cp => cp <= 0x10FFFF) [0x41; 0xFFFF; 0x10000])
    by (repeat constructor; lia).
  split; [ exact H | exact (to_utf16_size_u32_counts [0x41; 0xFFFF; 0x10000] H) ].
Defined.

(** X7: the size estimator over code points fails at the first code point
    above 0x10FFFF, with "Out of UTF-16 range" and the position of that code
    point, whatever follows it. *)
Theorem to_utf16_size_u32_first_out_of_range (good : list Z) (bad : Z) (post : list Z) :
  Forall (fun cp => cp <= 0x10FFFF) good ->
  0x10FFFF < bad ->
  unic.to_utf16_size_u32 (good ++ bad :: post)
  = Throw {| error_position := src_pos (length good); what := "Out of UTF-16 range" |}.
Proof.
  intros Hgood Hbad. unfold unic.to_utf16_size_u32.
  rewrite (u32_size_loop_rejects good Hgood bad post [] _ 0 Hbad).
  - reflexivity.
  - rewrite length_app. cbn. lia.
Qed.

Lemma to_utf16_size_u32_first_out_of_range_at_1 :
  Forall (fun cp => cp <= 0x10FFFF) [0x41] /\ 0x10FFFF < 0x110000 /\
  unic.to_utf16_size_u32 ([0x41] ++ 0x110000 :: [0x42; 0x7FFFFFFF])
  = Throw {| error_position := src_pos (length [0x41]); what := "Out of UTF-16 range" |}.
Proof.
  assert (H : Forall (fun cp => cp <= 0x10FFFF) [0x41]) by (repeat constructor; lia).
  split; [ exact H | split; [ lia | ] ].
  apply (to_utf16_size_u32_first_out_of_range [0x41] 0x110000 [0x42; 0x7FFFFFFF] H). lia.
Defined.

(** ** The size estimator and the encoding pass on arbitrary bytes *)

(** Over any input iterator the two loops take the same steps: they return
    together, and they fail together, with the same message; a decoding
    error is the same error in both, a range error carries the position of
    the output in the copy and of the input in the size loop. *)
Lemma size_loop_follows_copy {It : Type} {input : unic.input_iterator It} (fuel : nat) :
  forall (first last : It) (sink : unic.to_utf16_iter) (size : Z),
    match unic.copy fuel first last sink with
    | Value sink' =>
        unic.to_utf16_size_loop fuel first last size =
        Value (size + Z.of_nat (length (unic.m_iter sink')) - Z.of_nat (length (unic.m_iter sink)))
    | Throw e =>
        exists e',
          unic.to_utf16_size_loop fuel first last size = Throw e' /\
          what e' = what e /\
          (e' = e \/ what e = "Out of UTF-16 range"%string)
    | OutOfBounds => unic.to_utf16_size_loop fuel first last size = OutOfBounds
    | OutOfFuel => unic.to_utf16_size_loop fuel first last size = OutOfFuel
    end.
Proof.
  induction fuel as [ | fuel IH]; intros first last sink size;
    cbn [unic.copy unic.to_utf16_size_loop].
  - destruct (unic.iter_eqb first last); [ f_equal; lia | reflexivity ].
  - destruct (unic.iter_eqb first last); [ f_equal; lia | ].
    destruct (unic.deref first) as [cp | e | | ]; cbn [bind]; try reflexivity;
      [ | exists e; auto ].
    cbn [unic.assign unic.to_utf16_output]. unfold unic.append.
    destruct (cp <=? 0xFFFF); [ | destruct (cp <=? 0x10FFFF) ]; cbn [bind];
      [ | | eexists; repeat split; now right ];
      (destruct (unic.incr first) as [first' | e | | ]; cbn [bind]; try reflexivity;
       [ | exists e; auto ];
       match goal with
       | |- context [unic.copy fuel first' last ?s] =>
           specialize (IH first' last s);
           destruct (unic.copy fuel first' last s) as [sink' | e | | ]
       end;
       [ rewrite IH; f_equal; cbn [unic.m_iter]; rewrite length_app; cbn [length]; lia
       | apply IH | apply IH | apply IH ]).
Qed.

(** X8: on every source, valid or not, the size estimator follows the
    encoding pass.  If [to_utf16] completes, [to_utf16_size] returns the
    number of units written; if [to_utf16] throws, [to_utf16_size] throws
    with the same message, and with the same position unless the message is
    "Out of UTF-16 range"; neither reads outside the source. *)
Theorem to_utf16_size_follows_to_utf16 (src : list char8_t) :
  match unic.to_utf16 src [] with
  | Value units => unic.to_utf16_size src = Value (Z.of_nat (length units))
  | Throw e =>
      exists e',
        unic.to_utf16_size src = Throw e' /\
        what e' = what e /\
        (e' = e \/ what e = "Out of UTF-16 range"%string)
  | OutOfBounds | OutOfFuel => False
  end.
Proof.
  pose proof (to_utf16_safe src []) as Hsafe.
  unfold unic.to_utf16, unic.to_utf32, unic.to_utf16_size in *.
  pose proof (size_loop_follows_copy (input := unic.from_utf8_input src) (length src)
                (unic.begin src) (unic.end_ src) {| unic.m_iter := [] |} 0) as Hfollow.
  destruct (unic.copy _ _ _ _) as [sink' | e | | ]; cbn [bind] in *; try contradiction.
  - rewrite Hfollow. f_equal. cbn. lia.
  - exact Hfollow.
Qed.

(** ** The two decoders side by side *)

(** The trailing-byte loops of [convert] and of [operator*] fold the same
    bytes in the same way. *)
Lemma trail_loops_agree (src : list char8_t) (n : nat) :
  forall (pos : nat) (cp : Z),
    match unic.trail_loop src n pos cp with
    | Value cp' => cppunicode.trail_loop src n pos cp = Value (Some ((pos + n)%nat, cp'))
    | Throw _ => cppunicode.trail_loop src n pos cp = Value None
    | OutOfBounds => cppunicode.trail_loop src n pos cp = OutOfBounds
    | OutOfFuel => False
    end.
Proof.
  induction n as [ | n IH]; intros pos cp; cbn [unic.trail_loop cppunicode.trail_loop].
  - now rewrite Nat.add_0_r.
  - destruct (read_cases src pos) as [-> | [b ->]]; cbn [bind]; [ reflexivity | ].
    unfold cppunicode.utf8_trail_byte.
    destruct ((u8 b <? 0x80) || (0xBF <? u8 b)); [ reflexivity | ].
    replace (pos + S n)%nat with (S pos + n)%nat by lia. apply IH.
Qed.

Lemma header_invalid (b : char8_t) :
  0x80 <= u8 b < 0xC0 ->
  cppunicode.utf8_header_byte b 0 = (-1, 0) /\ unic.compute_byte_count b = -1.
Proof.
  intros Hb. rewrite compute_byte_count_table. unfold cppunicode.utf8_header_byte.
  resolve_ltb. split; reflexivity.
Qed.

Lemma header_legacy (b : char8_t) :
  0xF8 <= u8 b -> cppunicode.utf8_header_byte b 0 = (-1, 0).
Proof. intros Hb. unfold cppunicode.utf8_header_byte. resolve_ltb. reflexivity. Qed.

Ltac lazy_seed k base :=
  match goal with
  | |- context [Z.shiftr (char8 (Z.lnot 0)) ?s] =>
      change (Z.shiftr (char8 (Z.lnot 0)) s) with (Z.ones k)
  end;
  rewrite (header_seed _ base k) by (try reflexivity; lia);
  rewrite char32_small by lia.

Ltac agree_on_trailing src n pos seed :=
  pose proof (trail_loops_agree src n pos seed) as Hagree;
  pose proof (lazy_trail_loop_safe src n pos seed) as Hsafe;
  destruct (unic.trail_loop src n pos seed) as [cp' | e | | ];
    [ rewrite Hagree; split; [ reflexivity | f_equal; f_equal; lia ]
    | rewrite Hagree; eauto
    | exfalso; apply Hsafe; lia
    | contradiction ].

(** One step of [convert] against [operator*] and [operator++] at the same
    offset, for a header below 0xF8: [convert] decodes a code point exactly
    when [operator*] does, the same one, and its cursor then stands where
    [operator++] puts the iterator; otherwise [operator*] throws. *)
Lemma decoders_agree_step (src : list char8_t) (pos : nat) (b : char8_t) :
  read src pos = Value b ->
  u8 b < 0xF8 ->
  let it := {| unic.m_begin := pos; unic.m_end := length src |} in
  match cppunicode.decode_step src pos with
  | Value (Some (pos', cp)) =>
      unic.operator_deref src it = Value cp /\
      unic.operator_inc src it = Value {| unic.m_begin := pos'; unic.m_end := length src |}
  | Value None => exists e, unic.operator_deref src it = Throw e
  | _ => False
  end.
Proof.
  intros Hread Hb it.
  assert (Hpos : (pos < length src)%nat).
  { unfold read in Hread. destruct (nth_error src pos) eqn:Hnth; [ | discriminate ].
    apply nth_error_Some. congruence. }
  unfold cppunicode.decode_step, unic.operator_deref, unic.operator_inc.
  cbn [unic.m_begin unic.m_end it]. rewrite Hread. cbn [bind].
  destruct (utf8_header_byte_cases b 0) as (Hh1 & Hh2 & Hh3 & Hh4).
  destruct (compute_byte_count_cases b) as (Hc1 & Hc2 & Hc3 & Hc4).
  pose proof (u8_range b) as Hrange.
  assert (Hcases : u8 b < 0x80 \/ 0x80 <= u8 b < 0xC0 \/ 0xC0 <= u8 b < 0xE0 \/
                   0xE0 <= u8 b < 0xF0 \/ 0xF0 <= u8 b < 0xF8) by lia.
  destruct Hcases as [Hr | [Hr | [Hr | [Hr | Hr]]]].
  - rewrite Hh1, Hc1 by lia. cbn [Z.eqb Z.ltb Z.compare orb Pos.eqb].
    destruct (Z.gtb_spec 0 (Z.of_nat (length src) - Z.of_nat (S pos)));
      destruct (Z.gtb_spec 1 (Z.of_nat (length src) - Z.of_nat pos)); try lia.
    cbn. split; [ reflexivity | f_equal; f_equal; lia ].
  - destruct (header_invalid b Hr) as [-> ->]. cbn. eauto.
  - rewrite Hh2, Hc2 by lia. cbn [Z.eqb Z.ltb Z.compare orb Pos.eqb].
    destruct (Z.gtb_spec 1 (Z.of_nat (length src) - Z.of_nat (S pos)));
      destruct (Z.gtb_spec 2 (Z.of_nat (length src) - Z.of_nat pos)); try lia; [ eauto | ].
    lazy_seed 5 0xC0.
    change (Z.to_nat (2 - 1)) with 1%nat. change (Z.to_nat 1) with 1%nat.
    change (Z.to_nat 2) with 2%nat.
    agree_on_trailing src 1%nat (S pos) (u8 b - 0xC0).
  - rewrite Hh3, Hc3 by lia. cbn [Z.eqb Z.ltb Z.compare orb Pos.eqb].
    destruct (Z.gtb_spec 2 (Z.of_nat (length src) - Z.of_nat (S pos)));
      destruct (Z.gtb_spec 3 (Z.of_nat (length src) - Z.of_nat pos)); try lia; [ eauto | ].
    lazy_seed 4 0xE0.
    change (Z.to_nat (3 - 1)) with 2%nat. change (Z.to_nat 2) with 2%nat.
    change (Z.to_nat 3) with 3%nat.
    agree_on_trailing src 2%nat (S pos) (u8 b - 0xE0).
  - rewrite Hh4, Hc4 by lia. cbn [Z.eqb Z.ltb Z.compare orb Pos.eqb].
    destruct (Z.gtb_spec 3 (Z.of_nat (length src) - Z.of_nat (S pos)));
      destruct (Z.gtb_spec 4 (Z.of_nat (length src) - Z.of_nat pos)); try lia; [ eauto | ].
    lazy_seed 3 0xF0.
    change (Z.to_nat (4 - 1)) with 3%nat. change (Z.to_nat 3) with 3%nat.
    change (Z.to_nat 4) with 4%nat.
    agree_on_trailing src 3%nat (S pos) (u8 b - 0xF0).
Qed.

Lemma decode_step_implies_lazy (src : list char8_t) (pos pos' : nat) (cp : Z) :
  cppunicode.decode_step src pos = Value (Some (pos', cp)) ->
  unic.operator_deref src {| unic.m_begin := pos; unic.m_end := length src |} = Value cp /\
  unic.operator_inc src {| unic.m_begin := pos; unic.m_end := length src |}
    = Value {| unic.m_begin := pos'; unic.m_end := length src |}.
Proof.
  intros Hstep.
  destruct (read_cases src pos) as [Hread | [b Hread]].
  - unfold cppunicode.decode_step in Hstep. rewrite Hread in Hstep. discriminate.
  - destruct (Z.lt_ge_cases (u8 b) 0xF8) as [Hb | Hb].
    + pose proof (decoders_agree_step src pos b Hread Hb) as Hagree.
      cbv zeta in Hagree. now rewrite Hstep in Hagree.
    + unfold cppunicode.decode_step in Hstep.
      rewrite Hread in Hstep. cbn [bind] in Hstep.
      rewrite header_legacy in Hstep by lia. discriminate.
Qed.

Section convert_and_lazy.

Variable src : list char8_t.

Let at_ (pos : nat) : unic.iterator := {| unic.m_begin := pos; unic.m_end := length src |}.

Let lazy_copy {Out : Type} {output : unic.output_iterator Out} (fuel pos : nat) (out : Out) :=
  unic.copy (input := unic.from_utf8_input src) fuel (at_ pos) (unic.end_ src) out.

Lemma lazy_copy_end (fuel pos : nat) (out : list Z) :
  (length src <= pos)%nat -> (pos <= length src)%nat -> lazy_copy fuel pos out = Value out.
Proof.
  intros Hge Hle. assert (pos = length src) as -> by lia.
  unfold lazy_copy.
  destruct fuel; cbn [unic.copy unic.iter_eqb unic.from_utf8_input];
    unfold unic.operator_eq; cbn [at_ unic.end_ unic.m_begin]; now rewrite Nat.eqb_refl.
Qed.

Lemma lazy_copy_step (fuel pos : nat) (out : list Z) :
  (pos < length src)%nat ->
  lazy_copy (S fuel) pos out =
  cp <- unic.operator_deref src (at_ pos) ;;
  first' <- unic.operator_inc src (at_ pos) ;;
  unic.copy (input := unic.from_utf8_input src) fuel first' (unic.end_ src) (out ++ [cp]).
Proof.
  intros Hlt. unfold lazy_copy.
  cbn [unic.copy unic.iter_eqb unic.deref unic.incr unic.assign unic.from_utf8_input
       unic.u32_output].
  unfold unic.operator_eq. cbn [at_ unic.end_ unic.m_begin].
  destruct (Nat.eqb_spec pos (length src)); [ lia | ].
  destruct (unic.operator_deref src _); reflexivity.
Qed.

(** When the loop of [convert] ends with a count, the lazy range has decoded
    the same bytes into code points, and the count and the units are those
    of the encoding steps over these code points. *)
Lemma convert_loop_success_decodes (fuel : nat) :
  forall (pos : nat) (u16out u16out' : cppunicode.destination) (size n : Z) (out : list Z),
    (pos <= length src)%nat -> 0 <= size ->
    cppunicode.convert_loop fuel src pos u16out size = Value (n, u16out') ->
    n <> -1 ->
    exists cps,
      lazy_copy fuel pos out = Value (out ++ cps) /\
      encode_steps cps u16out size = (n, u16out').
Proof.
  induction fuel as [ | fuel IH]; intros pos u16out u16out' size n out Hpos Hsize Hloop Hn;
    cbn [cppunicode.convert_loop] in Hloop;
    destruct (Nat.leb_spec (length src) pos) as [Hend | Hmore]; try discriminate;
    try (injection Hloop as <- <-; exists []; rewrite app_nil_r;
         split; [ now apply lazy_copy_end | reflexivity ]).
  destruct (decode_step_in_bounds src pos Hmore) as [Hstep | (pos' & cp & Hstep & Hpos')];
    rewrite Hstep in Hloop; cbn [bind] in Hloop.
  - injection Hloop as <- <-. contradiction.
  - destruct (decode_step_implies_lazy src pos pos' cp Hstep) as [Hderef Hinc].
    destruct (encode_step_cases cp u16out size) as (units & Henc & Hunits).
    rewrite Henc in Hloop.
    apply (IH _ _ _ _ _ (out ++ [cp])) in Hloop as (cps & Hcopy & Hsteps); try lia.
    exists (cp :: cps). split.
    + rewrite lazy_copy_step by lia. fold (at_ pos) in Hderef, Hinc.
      rewrite Hderef. cbn [bind]. rewrite Hinc. cbn [bind].
      unfold lazy_copy in Hcopy. fold (at_ pos'). rewrite Hcopy.
      now rewrite <- app_assoc.
    + cbn [encode_steps]. now rewrite Henc.
Qed.

(** When the lazy range throws, the loop of [convert] returns the
    sentinel. *)
Lemma lazy_failure_fails_convert_loop (fuel : nat) :
  forall (pos : nat) (u16out : cppunicode.destination) (size : Z) (out : list Z)
         (e : utf_positioned_error),
    (pos <= length src)%nat ->
    lazy_copy fuel pos out = Throw e ->
    exists u16out', cppunicode.convert_loop fuel src pos u16out size = Value (-1, u16out').
Proof.
  induction fuel as [ | fuel IH]; intros pos u16out size out e Hpos Hcopy;
    cbn [cppunicode.convert_loop];
    destruct (Nat.leb_spec (length src) pos) as [Hend | Hmore];
    try (rewrite lazy_copy_end in Hcopy by lia; discriminate).
  - unfold lazy_copy in Hcopy. cbn [unic.copy] in Hcopy.
    destruct (unic.iter_eqb _ _) in Hcopy; discriminate.
  - destruct (decode_step_in_bounds src pos Hmore) as [-> | (pos' & cp & Hstep & Hpos')];
      cbn [bind]; [ eauto | ].
    destruct (decode_step_implies_lazy src pos pos' cp Hstep) as [Hderef Hinc].
    rewrite Hstep. cbn [bind].
    rewrite lazy_copy_step in Hcopy by lia. fold (at_ pos) in Hderef, Hinc.
    rewrite Hderef in Hcopy. cbn [bind] in Hcopy. rewrite Hinc in Hcopy. cbn [bind] in Hcopy.
    destruct (cppunicode.encode_step cp u16out size) as [u16out1 size1].
    apply (IH pos' u16out1 size1 (out ++ [cp]) e); [ lia | exact Hcopy ].
Qed.

(** When no byte of the source is 0xF8 or above and the lazy range decodes
    it, the loop of [convert] ends with the count and the units of the
    encoding steps over the decoded code points. *)
Lemma lazy_success_drives_convert_loop (fuel : nat) :
  Forall (fun b => u8 b < 0xF8) src ->
  forall (pos : nat) (u16out : cppunicode.destination) (size : Z) (out out' : list Z),
    (pos <= length src)%nat ->
    lazy_copy fuel pos out = Value out' ->
    exists cps,
      out' = out ++ cps /\
      cppunicode.convert_loop fuel src pos u16out size = Value (encode_steps cps u16out size).
Proof.
  intros Hbytes.
  induction fuel as [ | fuel IH]; intros pos u16out size out out' Hpos Hcopy;
    cbn [cppunicode.convert_loop];
    destruct (Nat.leb_spec (length src) pos) as [Hend | Hmore];
    try (rewrite lazy_copy_end in Hcopy by lia; injection Hcopy as <-;
         exists []; now rewrite app_nil_r).
  - unfold lazy_copy in Hcopy. cbn [unic.copy] in Hcopy.
    destruct (unic.iter_eqb _ _) eqn:Heq in Hcopy; [ | discriminate ].
    cbn [unic.iter_eqb unic.from_utf8_input] in Heq. unfold unic.operator_eq in Heq.
    cbn [at_ unic.end_ unic.m_begin] in Heq. apply Nat.eqb_eq in Heq. lia.
  - destruct (read_in_bounds src pos Hmore) as [b Hread].
    assert (Hb : u8 b < 0xF8).
    { rewrite Forall_forall in Hbytes. apply Hbytes.
      unfold read in Hread. destruct (nth_error src pos) eqn:Hnth; [ | discriminate ].
      injection Hread as ->. eapply nth_error_In; eauto. }
    pose proof (decoders_agree_step src pos b Hread Hb) as Hagree. cbv zeta in Hagree.
    fold (at_ pos) in Hagree.
    rewrite lazy_copy_step in Hcopy by lia.
    destruct (decode_step_in_bounds src pos Hmore) as [Hstep | (pos' & cp & Hstep & Hpos')];
      rewrite Hstep in Hagree |- *; cbn [bind].
    + destruct Hagree as [e He]. rewrite He in Hcopy. discriminate.
    + destruct Hagree as [Hderef Hinc].
      rewrite Hderef in Hcopy. cbn [bind] in Hcopy. rewrite Hinc in Hcopy. cbn [bind] in Hcopy.
      destruct (cppunicode.encode_step cp u16out size) as [u16out1 size1] eqn:Henc.
      apply (IH pos' u16out1 size1) in Hcopy as (cps & -> & Hloop); [ | lia ].
      exists (cp :: cps). split; [ now rewrite <- app_assoc | ].
      cbn [encode_steps]. now rewrite Henc.
Qed.

End convert_and_lazy.

(** X9: [convert] is at least as strict as the lazy range.  Whenever
    [convert] returns a count, [to_utf32] decodes the same source without
    throwing, and the count and the units written by [convert] are those of
    its encoding steps applied to the code points [to_utf32] yields. *)
Theorem convert_success_implies_lazy_decode
    (src : list char8_t) (u16out u16out' : cppunicode.destination) (n : Z) :
  cppunicode.convert src u16out = Value (n, u16out') ->
  n <> -1 ->
  exists cps,
    unic.to_utf32 src [] = Value cps /\
    encode_steps cps u16out 0 = (n, u16out').
Proof.
  intros Hconvert Hn. unfold cppunicode.convert in Hconvert.
  apply (convert_loop_success_decodes src _ _ _ _ _ _ []) in Hconvert; try lia.
  exact Hconvert.
Qed.

Lemma convert_success_implies_lazy_decode_U10000 :
  cppunicode.convert [x41; xf0; x90; x80; x80] cppunicode.buffer
    = Value (3, Some [0x41; 0xD800; 0xDC00]) /\
  3 <> -1 /\
  exists cps,
    unic.to_utf32 [x41; xf0; x90; x80; x80] [] = Value cps /\
    encode_steps cps cppunicode.buffer 0 = (3, Some [0x41; 0xD800; 0xDC00]).
Proof.
  split; [ reflexivity | split; [ lia | ] ].
  apply (convert_success_implies_lazy_decode [x41; xf0; x90; x80; x80]
           cppunicode.buffer (Some [0x41; 0xD800; 0xDC00]) 3); [ reflexivity | lia ].
Defined.

(** X10: whenever the lazy range throws while [to_utf32] drains it,
    [convert] returns the sentinel [-1] on the same source. *)
Theorem lazy_failure_implies_sentinel
    (src : list char8_t) (u16out : cppunicode.destination) (e : utf_positioned_error) :
  unic.to_utf32 src ([] : list Z) = Throw e ->
  exists u16out', cppunicode.convert src u16out = Value (-1, u16out').
Proof.
  intros Hthrow. unfold cppunicode.convert.
  apply (lazy_failure_fails_convert_loop src (length src) 0 u16out 0 [] e); [ lia | ].
  exact Hthrow.
Qed.

Lemma lazy_failure_implies_sentinel_C2_FF :
  unic.to_utf32 [x41; xc2; xff] ([] : list Z) = Throw (unic.trail_error 2) /\
  exists u16out', cppunicode.convert [x41; xc2; xff] cppunicode.buffer = Value (-1, u16out').
Proof.
  split; [ reflexivity | ].
  apply (lazy_failure_implies_sentinel [x41; xc2; xff] cppunicode.buffer (unic.trail_error 2)).
  reflexivity.
Defined.

(** X11: on a source with no byte 0xF8 or above, [convert] is exactly as
    strict as the lazy range: when [to_utf32] yields the code points [cps],
    [convert] returns the count and the units of its encoding steps over
    [cps], and never the sentinel. *)
Theorem convert_of_lazy_decode
    (src : list char8_t) (u16out : cppunicode.destination) (cps : list Z) :
  Forall (fun b => u8 b < 0xF8) src ->
  unic.to_utf32 src [] = Value cps ->
  cppunicode.convert src u16out = Value (encode_steps cps u16out 0).
Proof.
  intros Hbytes Hdecode. unfold cppunicode.convert.
  destruct (lazy_success_drives_convert_loop src (length src) Hbytes 0 u16out 0 [] cps)
    as (cps' & Hcps & Hloop); [ lia | exact Hdecode | ].
  cbn [app] in Hcps. now subst cps'.
Qed.

Lemma convert_of_lazy_decode_overlong :
  Forall (fun b => u8 b < 0xF8) [xc0; x80; xe0; x80; x80] /\
  unic.to_utf32 [xc0; x80; xe0; x80; x80] [] = Value [0; 0] /\
  cppunicode.convert [xc0; x80; xe0; x80; x80] cppunicode.buffer
    = Value (encode_steps [0; 0] cppunicode.buffer 0).
Proof.
  assert (H : Forall (fun b => u8 b < 0xF8) [xc0; x80; xe0; x80; x80])
    by (repeat constructor; vm_compute; reflexivity).
  split; [ exact H | split; [ reflexivity | ] ].
  apply (convert_of_lazy_decode [xc0; x80; xe0; x80; x80] cppunicode.buffer [0; 0] H).
  reflexivity.
Defined.

(** ** [convert] against [to_utf16] *)

(** A copy into a plain sink of code points tells what any other copy of the
    same range writes: the code points it collected, one after the other. *)
Lemma copy_factors {It : Type} {input : unic.input_iterator It} (fuel : nat) :
  forall (first last : It) (out out' : list Z),
    unic.copy fuel first last out = Value out' ->
    exists cps,
      out' = out ++ cps /\
      forall (Out : Type) (output : unic.output_iterator Out) (sink : Out),
        unic.copy fuel first last sink = assign_all sink cps.
Proof.
  induction fuel as [ | fuel IH]; intros first last out out' Hcopy; cbn [unic.copy] in *.
  - destruct (unic.iter_eqb first last); [ | discriminate ].
    injection Hcopy as <-. exists []. rewrite app_nil_r. split; reflexivity.
  - destruct (unic.iter_eqb first last).
    + injection Hcopy as <-. exists []. rewrite app_nil_r. split; reflexivity.
    + destruct (unic.deref first) as [cp | e | | ]; cbn [bind] in *; try discriminate.
      cbn [unic.assign unic.u32_output bind] in Hcopy.
      destruct (unic.incr first) as [first' | e | | ]; cbn [bind] in *; try discriminate.
      apply IH in Hcopy as (cps & -> & Hany).
      exists (cp :: cps). split; [ now rewrite <- app_assoc | ].
      intros Out output sink. cbn [assign_all].
      destruct (unic.assign sink cp) as [sink' | e | | ]; cbn [bind]; try reflexivity.
      apply Hany.
Qed.

Lemma encode_steps_match_append (cps : list Z) :
  Forall (fun cp => cp <= 0x10FFFF /\ cp <> 0xFFFF) cps ->
  forall (written : list Z) (size : Z),
    exists units,
      assign_all {| unic.m_iter := written |} cps = Value {| unic.m_iter := written ++ units |} /\
      encode_steps cps (Some written) size = (size + Z.of_nat (length units), Some (written ++ units)) /\
      encode_steps cps None size = (size + Z.of_nat (length units), None).
Proof.
  induction 1 as [ | cp cps [Hcp Hne] _ IH]; intros written size.
  - exists []. cbn. rewrite app_nil_r, Z.add_0_r. repeat split.
  - destruct (encode_step_matches_append cp written size Hcp Hne) as (u & Happ & Hsome & Hnone).
    cbn [assign_all encode_steps unic.assign unic.to_utf16_output].
    rewrite Happ, Hsome, Hnone. cbn [bind].
    destruct (IH (written ++ u) (size + Z.of_nat (length u))) as (us & Hall & Hs & Hn).
    exists (u ++ us). rewrite Hall, Hs, Hn, app_assoc, length_app.
    repeat split; f_equal; lia.
Qed.

(** X12: when [convert] returns a count and no decoded code point is 0xFFFF
    or above 0x10FFFF, the encoding pass [to_utf16] writes exactly the units
    [convert] has written and the size estimator [to_utf16_size] returns the
    count [convert] has returned. *)
Theorem convert_matches_to_utf16 (src : list char8_t) (n : Z) (units cps : list Z) :
  cppunicode.convert src cppunicode.buffer = Value (n, Some units) ->
  n <> -1 ->
  unic.to_utf32 src [] = Value cps ->
  Forall (fun cp => cp <= 0x10FFFF /\ cp <> 0xFFFF) cps ->
  unic.to_utf16 src [] = Value units /\
  unic.to_utf16_size src = Value n /\
  cppunicode.convert src cppunicode.null = Value (n, None).
Proof.
  intros Hconvert Hn Hdecode Hcps.
  pose proof Hconvert as Hfill. unfold cppunicode.convert in Hfill.
  apply (convert_loop_success_decodes src _ _ _ _ _ _ []) in Hfill as (cps' & Hcps' & Hsteps);
    try lia.
  cbn [app] in Hcps'. unfold unic.to_utf32, unic.begin in Hdecode.
  rewrite Hdecode in Hcps'. injection Hcps' as <-.
  destruct (encode_steps_match_append cps Hcps [] 0) as (u & Hall & Hsome & Hnone).
  unfold cppunicode.buffer in Hsteps. rewrite Hsome in Hsteps. cbn [app] in Hsteps, Hall.
  injection Hsteps as <- <-.
  destruct (copy_factors _ _ _ _ _ Hdecode) as (cps' & Heq & Hany). cbn [app] in Heq. subst cps'.
  assert (Hcopy : unic.copy (input := unic.from_utf8_input src) (length src)
                    {| unic.m_begin := 0; unic.m_end := length src |} (unic.end_ src)
                    {| unic.m_iter := [] |} = Value {| unic.m_iter := u |}).
  { rewrite Hany. exact Hall. }
  repeat split.
  - unfold unic.to_utf16, unic.to_utf32, unic.begin. now rewrite Hcopy.
  - unfold unic.to_utf16_size, unic.begin.
    rewrite (size_loop_agrees_with_copy _ _ _ _ _ 0 Hcopy). f_equal. cbn. lia.
  - unfold cppunicode.convert.
    rewrite (convert_loop_count src (length src) 0 cppunicode.buffer 0).
    fold (cppunicode.convert src cppunicode.buffer). rewrite Hconvert. reflexivity.
Qed.

Lemma convert_matches_to_utf16_mixed :
  cppunicode.convert [x41; xe2; x82; xac; xf0; x90; x8d; x88] cppunicode.buffer
    = Value (4, Some [0x41; 0x20AC; 0xD800; 0xDF48]) /\
  4 <> -1 /\
  unic.to_utf32 [x41; xe2; x82; xac; xf0; x90; x8d; x88] [] = Value [0x41; 0x20AC; 0x10348] /\
  Forall (fun cp => cp <= 0x10FFFF /\ cp <> 0xFFFF) [0x41; 0x20AC; 0x10348] /\
  unic.to_utf16 [x41; xe2; x82; xac; xf0; x90; x8d; x88] []
    = Value [0x41; 0x20AC; 0xD800; 0xDF48] /\
  unic.to_utf16_size [x41; xe2; x82; xac; xf0; x90; x8d; x88] = Value 4 /\
  cppunicode.convert [x41; xe2; x82; xac; xf0; x90; x8d; x88] cppunicode.null
    = Value (4, None).
Proof.
  assert (H : Forall (fun cp => cp <= 0x10FFFF /\ cp <> 0xFFFF) [0x41; 0x20AC; 0x10348])
    by (repeat constructor; lia).
  split; [ reflexivity | split; [ lia | split; [ reflexivity | split; [ exact H | ] ] ] ].
  apply (convert_matches_to_utf16 [x41; xe2; x82; xac; xf0; x90; x8d; x88] 4
           [0x41; 0x20AC; 0xD800; 0xDF48] [0x41; 0x20AC; 0x10348]);
    [ reflexivity | lia | reflexivity | exact H ].
Defined.

(** ** Both decoders on encoded sequences *)

Lemma shape_bytes_below_F8 (bs : list char8_t) :
  sequence_shape bs -> Forall (fun b => u8 b < 0xF8) bs.
Proof.
  destruct bs as [ | b0 [ | b1 [ | b2 [ | b3 [ | ? ?]]]]]; cbn; unfold is_trail;
    intros Hshape; try contradiction; repeat constructor; lia.
Qed.

Lemma encode_all_bytes_below_F8 (cps : list Z) :
  Forall (fun cp => 0 <= cp <= 0x10FFFF) cps ->
  Forall (fun b => u8 b < 0xF8) (reference.utf8_encode_all cps).
Proof.
  unfold reference.utf8_encode_all.
  induction 1 as [ | cp cps Hcp _ IH]; cbn [flat_map]; [ constructor | ].
  apply Forall_app. split; [ | exact IH ].
  apply shape_bytes_below_F8. now apply encode_well_formed.
Qed.

Lemma lazy_decode_encoded (cps : list Z) :
  Forall (fun cp => 0 <= cp <= 0x10FFFF) cps ->
  unic.to_utf32 (reference.utf8_encode_all cps) [] = Value cps.
Proof.
  intros Hcps. unfold unic.to_utf32, unic.begin.
  rewrite (copy_encoded cps Hcps [] _ [] (encode_all_length cps)).
  apply assign_all_u32.
Qed.

Lemma convert_encoded (cps : list Z) (u16out : cppunicode.destination) :
  Forall (fun cp => 0 <= cp <= 0x10FFFF) cps ->
  cppunicode.convert (reference.utf8_encode_all cps) u16out = Value (encode_steps cps u16out 0).
Proof.
  intros Hcps. unfold cppunicode.convert.
  set (src := reference.utf8_encode_all cps).
  destruct (lazy_success_drives_convert_loop src (length src)
              (encode_all_bytes_below_F8 cps Hcps) 0 u16out 0 [] cps)
    as (cps' & Heq & Hloop); [ lia | apply (lazy_decode_encoded cps Hcps) | ].
  cbn [app] in Heq. now subst cps'.
Qed.

(** X13: neither decoder rejects any code point of [0, 0x10FFFF], surrogates
    included: on the standard encoding of such a sequence [to_utf32] returns
    the sequence, and [convert] returns the count and the units of its
    encoding steps over it, never the sentinel. *)
Theorem decoders_accept_every_code_point (cps : list Z) (u16out : cppunicode.destination) :
  Forall (fun cp => 0 <= cp <= 0x10FFFF) cps ->
  unic.to_utf32 (reference.utf8_encode_all cps) [] = Value cps /\
  cppunicode.convert (reference.utf8_encode_all cps) u16out = Value (encode_steps cps u16out 0) /\
  fst (encode_steps cps u16out 0) <> -1.
Proof.
  intros Hcps. split; [ now apply lazy_decode_encoded | ].
  split; [ now apply convert_encoded | ].
  assert (Hgrow : forall l d size, 0 <= size -> 0 <= fst (encode_steps l d size)).
  { induction l as [ | cp l IH]; intros d size Hsize; cbn [encode_steps]; [ exact Hsize | ].
    destruct (encode_step_cases cp d size) as (units & -> & Hunits). apply IH. lia. }
  specialize (Hgrow cps u16out 0). lia.
Qed.

(** The lone surrogate U+D800 between two letters. *)
Lemma decoders_accept_every_code_point_surrogate :
  Forall (fun cp => 0 <= cp <= 0x10FFFF) [0x41; 0xD800; 0x42] /\
  unic.to_utf32 (reference.utf8_encode_all [0x41; 0xD800; 0x42]) [] = Value [0x41; 0xD800; 0x42] /\
  cppunicode.convert (reference.utf8_encode_all [0x41; 0xD800; 0x42]) cppunicode.buffer
    = Value (encode_steps [0x41; 0xD800; 0x42] cppunicode.buffer 0) /\
  fst (encode_steps [0x41; 0xD800; 0x42] cppunicode.buffer 0) <> -1.
Proof.
  assert (H : Forall (fun cp => 0 <= cp <= 0x10FFFF) [0x41; 0xD800; 0x42])
    by (repeat constructor; lia).
  split; [ exact H | ].
  exact (decoders_accept_every_code_point [0x41; 0xD800; 0x42] cppunicode.buffer H).
Defined.

(** X14: on valid UTF-8 that does not contain U+FFFF, [convert] and
    [to_utf16] write the same units, and [convert] returns their number in
    both modes. *)
Theorem convert_agrees_with_to_utf16_on_valid (cps : list Z) :
  forallb reference.is_scalar cps = true ->
  ~ In 0xFFFF cps ->
  exists units : list Z,
    unic.to_utf16 (reference.utf8_encode_all cps) [] = Value units /\
    cppunicode.convert (reference.utf8_encode_all cps) cppunicode.buffer
      = Value (Z.of_nat (length units), Some units) /\
    cppunicode.convert (reference.utf8_encode_all cps) cppunicode.null
      = Value (Z.of_nat (length units), None).
Proof.
  intros Hvalid Hnot. apply scalars_in_range in Hvalid.
  assert (Hok : Forall (fun cp => cp <= 0x10FFFF /\ cp <> 0xFFFF) cps).
  { rewrite Forall_forall in *. intros cp Hin. split; [ apply Hvalid, Hin | ].
    intros ->. contradiction. }
  destruct (encode_steps_match_append cps Hok [] 0) as (units & Hall & Hsome & Hnone).
  cbn [app] in *.
  exists units. repeat split.
  - unfold unic.to_utf16, unic.to_utf32, unic.begin.
    rewrite (copy_encoded (output := unic.to_utf16_output) cps Hvalid [] _ _
               (encode_all_length cps)).
    now rewrite Hall.
  - rewrite convert_encoded by assumption. unfold cppunicode.buffer. now rewrite Hsome.
  - rewrite convert_encoded by assumption. unfold cppunicode.null. now rewrite Hnone.
Qed.

Lemma convert_agrees_with_to_utf16_on_valid_mixed :
  forallb reference.is_scalar [0x41; 0x20AC; 0x10348] = true /\
  ~ In 0xFFFF [0x41; 0x20AC; 0x10348] /\
  exists units : list Z,
    unic.to_utf16 (reference.utf8_encode_all [0x41; 0x20AC; 0x10348]) [] = Value units /\
    cppunicode.convert (reference.utf8_encode_all [0x41; 0x20AC; 0x10348]) cppunicode.buffer
      = Value (Z.of_nat (length units), Some units) /\
    cppunicode.convert (reference.utf8_encode_all [0x41; 0x20AC; 0x10348]) cppunicode.null
      = Value (Z.of_nat (length units), None).
Proof.
  assert (H : ~ In 0xFFFF [0x41; 0x20AC; 0x10348]) by (cbn; intuition discriminate).
  split; [ reflexivity | split; [ exact H | ] ].
  apply (convert_agrees_with_to_utf16_on_valid [0x41; 0x20AC; 0x10348]); [ reflexivity | exact H ].
Defined.

(** ** ASCII *)

Lemma byte_of_Z_u8 (b : char8_t) : reference.byte_of_Z (u8 b) = b.
Proof. destruct b; reflexivity. Qed.

Lemma ascii_is_its_encoding (src : list char8_t) :
  Forall (fun b => u8 b < 0x80) src -> reference.utf8_encode_all (map u8 src) = src.
Proof.
  unfold reference.utf8_encode_all.
  induction 1 as [ | b src Hb _ IH]; cbn [map flat_map]; [ reflexivity | ].
  rewrite IH. unfold reference.utf8_encode.
  destruct (Z.ltb_spec (u8 b) 0x80); [ | lia ].
  now rewrite byte_of_Z_u8.
Qed.

Lemma encode_steps_one_unit_each (cps : list Z) :
  Forall (fun cp => 0 <= cp < 0xFFFF) cps ->
  forall (written : list Z) (size : Z),
    assign_all {| unic.m_iter := written |} cps = Value {| unic.m_iter := written ++ cps |} /\
    encode_steps cps (Some written) size = (size + Z.of_nat (length cps), Some (written ++ cps)) /\
    encode_steps cps None size = (size + Z.of_nat (length cps), None).
Proof.
  induction 1 as [ | cp cps Hcp _ IH]; intros written size.
  - cbn. rewrite app_nil_r, Z.add_0_r. repeat split.
  - cbn [assign_all encode_steps unic.assign unic.to_utf16_output].
    rewrite append_one_unit by lia. rewrite !encode_step_one_unit by lia.
    cbn [bind unic.m_iter cppunicode.store option_map].
    destruct (IH (written ++ [cp]) (size + 1)) as (Hall & Hsome & Hnone).
    rewrite Hall, Hsome, Hnone, <- app_assoc. cbn [app length].
    repeat split; f_equal; lia.
Qed.

(** X15: ASCII passes through.  On a source whose bytes are all below 0x80,
    [to_utf32] and [to_utf16] write the values of the bytes, one per byte,
    [to_utf16_size] returns the number of bytes, and [convert] returns the
    number of bytes and writes the values of the bytes. *)
Theorem ascii_passthrough (src : list char8_t) :
  Forall (fun b => u8 b < 0x80) src ->
  unic.to_utf32 src [] = Value (map u8 src) /\
  unic.to_utf16 src [] = Value (map u8 src) /\
  unic.to_utf16_size src = Value (Z.of_nat (length src)) /\
  cppunicode.convert src cppunicode.buffer = Value (Z.of_nat (length src), Some (map u8 src)) /\
  cppunicode.convert src cppunicode.null = Value (Z.of_nat (length src), None).
Proof.
  intros Hascii.
  assert (Hcps : Forall (fun cp => 0 <= cp < 0xFFFF) (map u8 src)).
  { apply Forall_map. rewrite Forall_forall in *. intros b Hin.
    pose proof (u8_range b). specialize (Hascii b Hin). cbn in Hascii. lia. }
  assert (Hrange : Forall (fun cp => 0 <= cp <= 0x10FFFF) (map u8 src)).
  { eapply Forall_impl; [ | exact Hcps ]. cbn. intros; lia. }
  destruct (encode_steps_one_unit_each (map u8 src) Hcps [] 0) as (Hall & Hsome & Hnone).
  cbn [app] in Hall, Hsome, Hnone. rewrite length_map in Hsome, Hnone.
  pose proof (lazy_decode_encoded (map u8 src) Hrange) as Hdecode.
  pose proof (convert_encoded (map u8 src) cppunicode.buffer Hrange) as Hfill.
  pose proof (convert_encoded (map u8 src) cppunicode.null Hrange) as Hdry.
  pose proof (copy_encoded (output := unic.to_utf16_output) (map u8 src) Hrange []
                (length (reference.utf8_encode_all (map u8 src))) {| unic.m_iter := [] |}
                (encode_all_length (map u8 src))) as Hcopy.
  cbn [app length] in Hcopy.
  rewrite ascii_is_its_encoding in Hdecode, Hfill, Hdry, Hcopy by assumption.
  rewrite Hall in Hcopy.
  repeat split.
  - exact Hdecode.
  - unfold unic.to_utf16, unic.to_utf32, unic.begin. now rewrite Hcopy.
  - unfold unic.to_utf16_size, unic.begin.
    rewrite (size_loop_agrees_with_copy _ _ _ _ _ 0 Hcopy). cbn [unic.m_iter length].
    rewrite length_map. f_equal. lia.
  - rewrite Hfill. unfold cppunicode.buffer. now rewrite Hsome.
  - rewrite Hdry. unfold cppunicode.null. now rewrite Hnone.
Qed.

Lemma ascii_passthrough_hello :
  Forall (fun b => u8 b < 0x80) [x68; x65; x6c; x6c; x6f] /\
  unic.to_utf32 [x68; x65; x6c; x6c; x6f] [] = Value (map u8 [x68; x65; x6c; x6c; x6f]) /\
  unic.to_utf16 [x68; x65; x6c; x6c; x6f] [] = Value (map u8 [x68; x65; x6c; x6c; x6f]) /\
  unic.to_utf16_size [x68; x65; x6c; x6c; x6f]
    = Value (Z.of_nat (length [x68; x65; x6c; x6c; x6f])) /\
  cppunicode.convert [x68; x65; x6c; x6c; x6f] cppunicode.buffer
    = Value (Z.of_nat (length [x68; x65; x6c; x6c; x6f]),
             Some (map u8 [x68; x65; x6c; x6c; x6f])) /\
  cppunicode.convert [x68; x65; x6c; x6c; x6f] cppunicode.null
    = Value (Z.of_nat (length [x68; x65; x6c; x6c; x6f]), None).
Proof.
  assert (H : Forall (fun b => u8 b < 0x80) [x68; x65; x6c; x6c; x6f])
    by (repeat constructor; vm_compute; reflexivity).
  split; [ exact H | exact (ascii_passthrough [x68; x65; x6c; x6c; x6f] H) ].
Defined.

(** ** [convert] on a concatenation *)

Lemma read_app_l {A : Type} (a b : list A) (pos : nat) (x : A) :
  read a pos = Value x -> read (a ++ b) pos = Value x.
Proof.
  unfold read. destruct (nth_error a pos) eqn:Hnth; [ | discriminate ].
  intros [= <-]. rewrite nth_error_app1 by (apply nth_error_Some; congruence).
  now rewrite Hnth.
Qed.

Lemma read_app_r {A : Type} (a b : list A) (pos : nat) :
  read (a ++ b) (length a + pos) = read b pos.
Proof.
  unfold read. rewrite nth_error_app2 by lia.
  now replace (length a + pos - length a)%nat with pos by lia.
Qed.

Lemma convert_trail_loop_app_l (a b : list char8_t) (n : nat) :
  forall (pos : nat) (cp : Z) (r : option (nat * Z)),
    cppunicode.trail_loop a n pos cp = Value r ->
    cppunicode.trail_loop (a ++ b) n pos cp = Value r.
Proof.
  induction n as [ | n IH]; intros pos cp r Hloop; cbn [cppunicode.trail_loop] in *;
    [ exact Hloop | ].
  destruct (read_cases a pos) as [Hread | [x Hread]]; rewrite Hread in Hloop;
    cbn [bind] in Hloop; [ discriminate | ].
  rewrite (read_app_l a b pos x Hread). cbn [bind].
  destruct (cppunicode.utf8_trail_byte x cp) as [[ | ] cp']; [ now apply IH | exact Hloop ].
Qed.

(** A sequence decoded inside [a] is decoded in the same way when more bytes
    follow [a]. *)
Lemma decode_step_app_l (a b : list char8_t) (pos pos' : nat) (cp : Z) :
  cppunicode.decode_step a pos = Value (Some (pos', cp)) ->
  cppunicode.decode_step (a ++ b) pos = Value (Some (pos', cp)).
Proof.
  unfold cppunicode.decode_step. intros Hstep.
  destruct (read_cases a pos) as [Hread | [x Hread]]; rewrite Hread in Hstep;
    cbn [bind] in Hstep; [ discriminate | ].
  rewrite (read_app_l a b pos x Hread). cbn [bind].
  destruct (cppunicode.utf8_header_byte x 0) as [byte_cnt seed].
  destruct (Z.ltb_spec byte_cnt 0) as [Hneg | Hpos]; cbn [orb] in *; [ discriminate | ].
  destruct (Z.gtb_spec byte_cnt (Z.of_nat (length a) - Z.of_nat (S pos))); [ discriminate | ].
  destruct (Z.gtb_spec byte_cnt (Z.of_nat (length (a ++ b)) - Z.of_nat (S pos))) as [Hgt | _].
  - rewrite length_app in Hgt. lia.
  - now apply convert_trail_loop_app_l.
Qed.

Lemma convert_trail_loop_app_r (a b : list char8_t) (n : nat) :
  forall (pos : nat) (cp : Z),
    cppunicode.trail_loop (a ++ b) n (length a + pos) cp =
    shift_step (length a) (cppunicode.trail_loop b n pos cp).
Proof.
  induction n as [ | n IH]; intros pos cp; cbn [cppunicode.trail_loop]; [ reflexivity | ].
  rewrite read_app_r.
  destruct (read b pos) as [x | e | | ]; cbn [bind shift_step]; try reflexivity.
  destruct (cppunicode.utf8_trail_byte x cp) as [[ | ] cp']; [ | reflexivity ].
  replace (S (length a + pos)) with (length a + S pos)%nat by lia. apply IH.
Qed.

(** Decoding in [b] after the prefix [a] is decoding in [b] alone, with the
    cursor shifted by the length of [a]. *)
Lemma decode_step_app_r (a b : list char8_t) (pos : nat) :
  cppunicode.decode_step (a ++ b) (length a + pos) =
  shift_step (length a) (cppunicode.decode_step b pos).
Proof.
  unfold cppunicode.decode_step. rewrite read_app_r.
  destruct (read b pos) as [x | e | | ]; cbn [bind shift_step]; try reflexivity.
  destruct (cppunicode.utf8_header_byte x 0) as [byte_cnt seed].
  replace (Z.of_nat (length (a ++ b)) - Z.of_nat (S (length a + pos)))
    with (Z.of_nat (length b) - Z.of_nat (S pos)) by (rewrite length_app; lia).
  destruct (_ || _); [ reflexivity | ].
  replace (S (length a + pos)) with (length a + S pos)%nat by lia.
  apply convert_trail_loop_app_r.
Qed.

(** Fuel beyond the number of bytes left changes nothing. *)
Lemma convert_loop_fuel (src : list char8_t) (fuel1 : nat) :
  forall (fuel2 pos : nat) (u16out : cppunicode.destination) (size : Z),
    (length src - pos <= fuel1)%nat -> (length src - pos <= fuel2)%nat ->
    cppunicode.convert_loop fuel1 src pos u16out size =
    cppunicode.convert_loop fuel2 src pos u16out size.
Proof.
  induction fuel1 as [ | fuel1 IH]; intros fuel2 pos u16out size H1 H2;
    destruct fuel2 as [ | fuel2]; cbn [cppunicode.convert_loop];
    destruct (Nat.leb_spec (length src) pos) as [Hend | Hmore]; try reflexivity; try lia.
  destruct (decode_step_in_bounds src pos Hmore) as [-> | (pos' & cp & -> & Hpos')];
    cbn [bind]; [ reflexivity | ].
  destruct (cppunicode.encode_step cp u16out size). apply IH; lia.
Qed.

Lemma convert_loop_suffix (a b : list char8_t) (fuel : nat) :
  forall (pos : nat) (u16out : cppunicode.destination) (size : Z),
    cppunicode.convert_loop fuel (a ++ b) (length a + pos) u16out size =
    cppunicode.convert_loop fuel b pos u16out size.
Proof.
  induction fuel as [ | fuel IH]; intros pos u16out size; cbn [cppunicode.convert_loop];
    (replace (length (a ++ b) <=? length a + pos)%nat with (length b <=? pos)%nat
      by (rewrite length_app; destruct (Nat.leb_spec (length b) pos),
            (Nat.leb_spec (length a + length b) (length a + pos)); auto; lia));
    [ reflexivity | ].
  destruct (length b <=? pos)%nat; [ reflexivity | ].
  rewrite decode_step_app_r.
  destruct (cppunicode.decode_step b pos) as [[[pos' cp] | ] | e | | ];
    cbn [shift_step bind option_map]; try reflexivity.
  destruct (cppunicode.encode_step cp u16out size). apply IH.
Qed.

Lemma convert_loop_prefix (a b : list char8_t) (fuel : nat) :
  forall (pos : nat) (u16out u16out' : cppunicode.destination) (size n : Z),
    (length a - pos <= fuel)%nat -> (pos <= length a)%nat ->
    cppunicode.convert_loop fuel a pos u16out size = Value (n, u16out') ->
    n <> -1 ->
    cppunicode.convert_loop (fuel + length b) (a ++ b) pos u16out size =
    cppunicode.convert_loop (length b) (a ++ b) (length a) u16out' n.
Proof.
  induction fuel as [ | fuel IH]; intros pos u16out u16out' size n Hfuel Hpos Hloop Hn;
    cbn [cppunicode.convert_loop] in Hloop;
    destruct (Nat.leb_spec (length a) pos) as [Hend | Hmore]; try discriminate; try lia.
  - injection Hloop as <- <-. assert (pos = length a) as -> by lia.
    apply convert_loop_fuel; rewrite length_app; lia.
  - injection Hloop as <- <-. assert (pos = length a) as -> by lia.
    apply convert_loop_fuel; rewrite length_app; lia.
  - destruct (decode_step_in_bounds a pos Hmore) as [Hstep | (pos' & cp & Hstep & Hpos')];
      rewrite Hstep in Hloop; cbn [bind] in Hloop.
    + injection Hloop as <- <-. contradiction.
    + cbn [Nat.add cppunicode.convert_loop].
      destruct (Nat.leb_spec (length (a ++ b)) pos) as [Hend | _];
        [ rewrite length_app in Hend; lia | ].
      rewrite (decode_step_app_l a b pos pos' cp Hstep). cbn [bind].
      destruct (cppunicode.encode_step cp u16out size) as [u16out1 size1].
      apply IH; auto; lia.
Qed.

Lemma convert_loop_size_shift (src : list char8_t) (k : Z) (fuel : nat) :
  0 <= k ->
  forall (pos : nat) (u16out : cppunicode.destination) (size : Z),
    0 <= size ->
    cppunicode.convert_loop fuel src pos u16out (size + k) =
    r <- cppunicode.convert_loop fuel src pos u16out size ;;
    Value (if fst r =? -1 then -1 else fst r + k, snd r).
Proof.
  intros Hk.
  induction fuel as [ | fuel IH]; intros pos u16out size Hsize; cbn [cppunicode.convert_loop];
    destruct (length src <=? pos)%nat; cbn [bind fst snd]; try reflexivity;
    try (destruct (Z.eqb_spec size (-1)); [ lia | reflexivity ]).
  destruct (cppunicode.decode_step src pos) as [[[pos' cp] | ] | e | | ]; cbn [bind fst snd];
    try reflexivity.
  unfold cppunicode.encode_step. destruct (cp <? 0xFFFF).
  - replace (size + k + 1) with (size + 1 + k) by lia. apply IH. lia.
  - replace (size + k + 2) with (size + 2 + k) by lia. apply IH. lia.
Qed.

(** X16: [convert] composes over concatenation at a sequence boundary.  When
    [convert] returns the count [n] on [a], converting [a ++ b] is converting
    [b] next into the destination left by [a]: it returns the sentinel when
    [b] does, and otherwise the sum of the two counts, with the units of [b]
    written after those of [a]. *)
Theorem convert_app (a b : list char8_t) (u16out u16out' : cppunicode.destination) (n : Z) :
  cppunicode.convert a u16out = Value (n, u16out') ->
  n <> -1 ->
  cppunicode.convert (a ++ b) u16out =
  r <- cppunicode.convert b u16out' ;;
  Value (if fst r =? -1 then -1 else fst r + n, snd r).
Proof.
  intros Ha Hn. unfold cppunicode.convert in *.
  assert (Hn0 : 0 <= n).
  { apply convert_loop_count_bound in Ha; lia. }
  rewrite length_app.
  rewrite (convert_loop_prefix a b (length a) 0 u16out u16out' 0 n) by (auto; lia).
  rewrite <- (Nat.add_0_r (length a)).
  rewrite convert_loop_suffix.
  apply (convert_loop_size_shift b n (length b) Hn0 0 u16out' 0). lia.
Qed.

Lemma convert_app_euro_then_truncated :
  cppunicode.convert [xe2; x82; xac] cppunicode.buffer = Value (1, Some [0x20AC]) /\
  1 <> -1 /\
  cppunicode.convert ([xe2; x82; xac] ++ [x41; xf0; x90]) cppunicode.buffer =
  r <- cppunicode.convert [x41; xf0; x90] (Some [0x20AC]) ;;
  Value (if fst r =? -1 then -1 else fst r + 1, snd r).
Proof.
  split; [ reflexivity | split; [ lia | ] ].
  apply (convert_app [xe2; x82; xac] [x41; xf0; x90] cppunicode.buffer (Some [0x20AC]) 1);
    [ reflexivity | lia ].
Defined.

(** X17: when [convert] returns a count on [a] and the bytes [b] that follow
    do not start with a decodable sequence, [convert] on [a ++ b] returns the
    sentinel and leaves in the destination exactly the units of [a]: nothing
    is written for the sequence that fails. *)
Theorem convert_failure_keeps_prefix
    (a b : list char8_t) (u16out u16out' : cppunicode.destination) (n : Z) :
  cppunicode.convert a u16out = Value (n, u16out') ->
  n <> -1 ->
  cppunicode.decode_step b 0 = Value None ->
  cppunicode.convert (a ++ b) u16out = Value (-1, u16out').
Proof.
  intros Ha Hn Hb. unfold cppunicode.convert in *.
  rewrite length_app.
  rewrite (convert_loop_prefix a b (length a) 0 u16out u16out' 0 n) by (auto; lia).
  rewrite <- (Nat.add_0_r (length a)).
  rewrite convert_loop_suffix.
  destruct b as [ | x b]; [ discriminate Hb | ].
  cbn [length cppunicode.convert_loop Nat.leb]. now rewrite Hb.
Qed.

Lemma convert_failure_keeps_prefix_C2_FF :
  cppunicode.convert [x41; xe2; x82; xac] cppunicode.buffer = Value (2, Some [0x41; 0x20AC]) /\
  2 <> -1 /\
  cppunicode.decode_step [xc2; xff; x42] 0 = Value None /\
  cppunicode.convert ([x41; xe2; x82; xac] ++ [xc2; xff; x42]) cppunicode.buffer
    = Value (-1, Some [0x41; 0x20AC]).
Proof.
  split; [ reflexivity | split; [ lia | split; [ reflexivity | ] ] ].
  apply (convert_failure_keeps_prefix [x41; xe2; x82; xac] [xc2; xff; x42]
           cppunicode.buffer (Some [0x41; 0x20AC]) 2); [ reflexivity | lia | reflexivity ].
Defined.

(** ** The two overloads of the size estimator *)

Lemma assign_all_units (cps : list Z) :
  Forall (fun cp => 0 <= cp <= 0x10FFFF) cps ->
  forall sink : unic.to_utf16_iter,
    exists units,
      assign_all sink cps = Value {| unic.m_iter := unic.m_iter sink ++ units |} /\
      Z.of_nat (length units) = units_needed cps.
Proof.
  induction 1 as [ | cp cps Hcp _ IH]; intros sink; cbn [assign_all units_needed].
  - exists []. rewrite app_nil_r. destruct sink. split; reflexivity.
  - cbn [unic.assign unic.to_utf16_output].
    destruct (append_units sink cp) as (u & -> & Hu); [ lia | ]. cbn [bind].
    destruct (IH {| unic.m_iter := unic.m_iter sink ++ u |}) as (us & -> & Hus).
    cbn [unic.m_iter]. exists (u ++ us). rewrite app_assoc, length_app.
    split; [ reflexivity | lia ].
Qed.

(** X18: the overload of the size estimator over bytes and the overload over
    code points agree: for code points of [0, 0x10FFFF], sizing their UTF-8
    encoding gives what sizing the code points gives, one unit for each code
    point up to 0xFFFF and two for each one above. *)
Theorem size_overloads_agree (cps : list Z) :
  Forall (fun cp => 0 <= cp <= 0x10FFFF) cps ->
  unic.to_utf16_size (reference.utf8_encode_all cps) = Value (units_needed cps) /\
  unic.to_utf16_size_u32 cps = Value (units_needed cps).
Proof.
  intros Hcps. split.
  - pose proof (copy_encoded (output := unic.to_utf16_output) cps Hcps []
                  (length (reference.utf8_encode_all cps)) {| unic.m_iter := [] |}
                  (encode_all_length cps)) as Hcopy.
    cbn [app length] in Hcopy.
    destruct (assign_all_units cps Hcps {| unic.m_iter := [] |}) as (units & Hall & Hlen).
    rewrite Hall in Hcopy. cbn [unic.m_iter app] in Hcopy.
    unfold unic.to_utf16_size, unic.begin.
    rewrite (size_loop_agrees_with_copy _ _ _ _ _ 0 Hcopy). cbn [unic.m_iter length].
    f_equal. lia.
  - unfold unic.to_utf16_size_u32.
    apply (u32_size_loop_accepts cps) with (pre := []) (size := 0); [ | lia ].
    eapply Forall_impl; [ | exact Hcps ]. cbn. intros; lia.
Qed.

Lemma size_overloads_agree_mixed :
  Forall (fun cp => 0 <= cp <= 0x10FFFF) [0x41; 0xD800; 0xFFFF; 0x10FFFF] /\
  unic.to_utf16_size (reference.utf8_encode_all [0x41; 0xD800; 0xFFFF; 0x10FFFF])
    = Value (units_needed [0x41; 0xD800; 0xFFFF; 0x10FFFF]) /\
  unic.to_utf16_size_u32 [0x41; 0xD800; 0xFFFF; 0x10FFFF]
    = Value (units_needed [0x41; 0xD800; 0xFFFF; 0x10FFFF]).
Proof.
  assert (H : Forall (fun cp => 0 <= cp <= 0x10FFFF) [0x41; 0xD800; 0xFFFF; 0x10FFFF])
    by (repeat constructor; lia).
  split; [ exact H | exact (size_overloads_agree [0x41; 0xD800; 0xFFFF; 0x10FFFF] H) ].
Defined.
